(** * Ingestion and deduplication engine of [app.py]

    A shallow embedding of the data-processing methods of
    [DataProcessorApp] (receiving an upload, category detection, identifier
    assignment, the duplicate filter as it is written, timestamp
    normalisation and the load / merge / save run of [process_data])
    together with the properties its specification states about them.

    Python values are modelled as follows.
    - A record (one row of the uploaded table, a [dict] from column name to
      cell) is a finite map [gmap string value].
    - The identifier table (a [dict] from identity value to identifier) is a
      finite map [gmap value string].
    - A [dict] that is iterated over, so that its insertion order is
      observable ([categories], the dictionary handed to the merge loop), is an
      association list.
    - An exception is a value of [exn]; code that may raise returns a
      [result].

    The widgets of the user interface (labels, progress bar, dialogs) carry
    no data of the engine and are left out; so are the statements of
    [process_data] that follow the save, which only update them. *)

From Stdlib Require Import NArith ZArith Decimal DecimalString DecimalN Ascii String.
From stdpp Require Import gmap strings list fin_maps.
From Equations Require Equations.

Local Open Scope string_scope.
Local Open Scope list_scope.

(** ** Exceptions and results *)

(** A cell of the table as pandas hands it over: a string, an integer, a
    missing cell (the float NaN) or [None].  Inside a [set] or as a [dict]
    key Python compares NaN objects by identity, so a NaN carries the
    identity [oid] of its float object.  Finite floats and booleans are not
    modelled. *)
Inductive value :=
  | VStr (s : string)
  | VInt (z : Z)
  | VNaN (oid : nat)
  | VNone.

Global Instance value_eq_dec : EqDecision value.
Proof. solve_decision. Defined.

Definition value_to_sum (v : value) : string + Z + nat + unit :=
  match v with
  | VStr s => inl (inl (inl s))
  | VInt z => inl (inl (inr z))
  | VNaN i => inl (inr i)
  | VNone => inr tt
  end.

Definition value_of_sum (x : string + Z + nat + unit) : value :=
  match x with
  | inl (inl (inl s)) => VStr s
  | inl (inl (inr z)) => VInt z
  | inl (inr i) => VNaN i
  | inr _ => VNone
  end.

Global Instance value_countable : Countable value.
Proof.
  refine (inj_countable' value_to_sum value_of_sum _).
  by intros [].
Defined.

(** The exception classes the modelled code can raise.  [KeyError] carries
    the missing key, as Python's does. *)
Inductive exn :=
  | KeyError (key : value)
  | IndexError
  | ValueError
  | TypeError
  | AttributeError
  | NameError (name : string)
  | OSError
  | OtherError (name : string).

Global Instance exn_eq_dec : EqDecision exn.
Proof. solve_decision. Defined.

Inductive result (A : Type) :=
  | Ok (a : A)
  | Raise (e : exn).
Global Arguments Ok {A} a.
Global Arguments Raise {A} e.

Global Instance result_ret : MRet result := λ A a, Ok a.
Global Instance result_bind : MBind result := λ A B f r,
  match r with
  | Ok a => f a
  | Raise e => Raise e
  end.
Global Instance result_fmap : FMap result := λ A B f r,
  match r with
  | Ok a => Ok (f a)
  | Raise e => Raise e
  end.

Global Instance result_eq_dec {A} `{EqDecision A} : EqDecision (result A).
Proof. solve_decision. Defined.

Definition is_Ok {A} (r : result A) : Prop := ∃ a, r = Ok a.

(** [d[key]] on a record. *)
Definition getitem (d : gmap string value) (key : string) : result value :=
  match d !! key with
  | Some v => Ok v
  | None => Raise (KeyError (VStr key))
  end.

(** A loop [for x in xs: st = body(st, x)] whose body may raise. *)
Fixpoint for_each {S A} (body : S → A → result S) (st : S) (xs : list A)
  : result S :=
  match xs with
  | [] => Ok st
  | x :: xs => st' ← body st x; for_each body st' xs
  end.

(** ** Category detection ([detect_data_category]) *)

(** The dictionary literal of [detect_data_category]; iteration over
    [categories.items()] follows the order of the literal. *)
Definition categories : list (string * list string) :=
  [ ("Messenger", ["Time"; "Sender"; "Text"]);
    ("SMS", ["SMS Type"; "Time"; "From/To"; "Text"; "Location"]);
    ("Calls", ["Call Type"; "Time"; "From/To"; "Duration"; "Location"]);
    ("Keylog", ["Application"; "Time"; "Text"]);
    ("Contacts", ["Name"; "Phone Number"; "Email Id"; "Last Contacted"]);
    ("Installed Apps", ["Application Name"; "Package Name"; "Installed Date"]) ].

(** [all(col in columns for col in required_columns)] *)
Definition all_in (columns required_columns : list string) : bool :=
  forallb (λ col, bool_decide (col ∈ columns)) required_columns.

(** The [for] loop over a dictionary [cats]: the first matching category is
    returned, [None] when the loop runs to its end. *)
Fixpoint first_match (columns : list string) (cats : list (string * list string))
  : option string :=
  match cats with
  | [] => None
  | (category, required_columns) :: cats =>
      if all_in columns required_columns then Some category
      else first_match columns cats
  end.

Definition detect_data_category (columns : list string) : option string :=
  first_match columns categories.

(** ** Identifier assignment ([assign_unique_identifiers]) *)

(** [s.split(sep)] for a one-character separator. *)
Fixpoint split_on (sep : ascii) (s : string) : list string :=
  match s with
  | EmptyString => [EmptyString]
  | String c s' =>
      if Ascii.eqb c sep then EmptyString :: split_on sep s'
      else match split_on sep s' with
           | part :: parts => String c part :: parts
           | [] => [String c EmptyString]
           end
  end.

(** [int(s)] on a non-empty string of ASCII decimal digits; every other
    string is treated as a [ValueError].  (Python's [int] also accepts a
    sign and surrounding blanks, and refuses numerals of several thousand
    digits; no identifier written by this program has either.) *)
Definition python_int (s : string) : result N :=
  match NilZero.uint_of_string s with
  | Some d => Ok (N.of_uint d)
  | None => Raise ValueError
  end.

(** [int(id.split("_")[1])] *)
Definition id_number (id : string) : result N :=
  match split_on "_" id !! 1%nat with
  | Some suffix => python_int suffix
  | None => Raise IndexError
  end.

Fixpoint zeros (k : nat) : string :=
  match k with
  | O => EmptyString
  | S k => String "0" (zeros k)
  end.

(** The format specification [03d] applied to a natural number: its decimal
    digits, padded on the left with zeros up to width three. *)
Definition format_03d (n : N) : string :=
  let digits := NilZero.string_of_uint (N.to_uint n) in
  zeros (3 - String.length digits) +:+ digits.

(** [f"ID_{next_id:03d}"] *)
Definition format_id (next_id : N) : string := "ID_" +:+ format_03d next_id.

Definition max_of (ns : list N) : N := foldr N.max 0%N ns.

(** Line 176:
    [max(int(id.split("_")[1]) for id in existing_identifiers.values()) + 1
     if existing_identifiers else 1].
    When several identifiers of the table are malformed, Python raises for
    the first one in insertion order, the model for the first one in the
    order of [map_to_list]. *)
Definition initial_next_id (existing_identifiers : gmap value string) : result N :=
  match (map_to_list existing_identifiers).*2 with
  | [] => Ok 1%N
  | ids => ns ← mapM id_number ids; Ok (max_of ns + 1)%N
  end.

(** The branch on [category] at the head of the loop body: the field that
    holds the identity value, [None] for the [continue] branch. *)
Definition sender_field (category : string) : option string :=
  if bool_decide (category ∈ ["Messenger"; "SMS"; "Calls"]) then
    Some (if bool_decide (category = "Messenger") then "Sender" else "From/To")
  else if bool_decide (category = "Contacts") then Some "Name"
  else None.

(** The state of the loop: the table, the counter [next_id] and the entries
    already visited (each entry is updated in place; the list keeps them in
    order). *)
Record assign_state := AssignState {
  as_identifiers : gmap value string;
  as_next_id : N;
  as_done : list (gmap string value)
}.

(** One iteration of the loop of [assign_unique_identifiers]. *)
Definition assign_entry (category : string) (st : assign_state)
    (entry : gmap string value) : result assign_state :=
  match sender_field category with
  | None => Ok (AssignState (as_identifiers st) (as_next_id st) (as_done st ++ [entry]))
  | Some field =>
      sender ← getitem entry field;
      let fresh := bool_decide (as_identifiers st !! sender = None) in
      let identifiers :=
        if fresh then <[sender := format_id (as_next_id st)]> (as_identifiers st)
        else as_identifiers st in
      let next_id := if fresh then (as_next_id st + 1)%N else as_next_id st in
      match identifiers !! sender with
      | Some id =>
          Ok (AssignState identifiers next_id
                (as_done st ++ [<["identifier" := VStr id]> entry]))
      | None => Raise (KeyError sender)
      end
  end.

(** [assign_unique_identifiers(processed_data, category, existing_identifiers)];
    [existing_identifiers] may be [None].  The result is the pair the method
    returns.  (In Python the table object passed in is updated in place, so
    a caller that catches an exception sees the entries added before it.) *)
Definition assign_unique_identifiers (processed_data : list (gmap string value))
    (category : string) (existing_identifiers : option (gmap value string))
  : result (list (gmap string value) * gmap value string) :=
  let identifiers := default ∅ existing_identifiers in
  next_id ← initial_next_id identifiers;
  st ← for_each (assign_entry category) (AssignState identifiers next_id []) processed_data;
  Ok (as_done st, as_identifiers st).

(** ** Duplicate filter ([prevent_duplicate_entries]) *)

(** The dictionary [unique_fields] of lines 199-206. *)
Definition unique_fields : list (string * list string) :=
  [ ("Messenger", ["Time"; "Sender"; "Text"]);
    ("SMS", ["Time"; "From/To"; "Text"]);
    ("Calls", ["Time"; "From/To"; "Duration"]);
    ("Keylog", ["Application"; "Time"; "Text"]);
    ("Contacts", ["Name"; "Phone Number"]);
    ("Installed Apps", ["Application Name"; "Package Name"]) ].

(** [d[key]] on a dictionary written as a literal. *)
Definition lookup_literal {A} (d : list (string * A)) (key : string) : result A :=
  match list_find (λ kv, kv.1 = key) d with
  | Some (_, (_, a)) => Ok a
  | None => Raise (KeyError (VStr key))
  end.

(** [prevent_duplicate_entries(self, processed_data, category)], lines
    194-206.  The body of the method is its docstring and the assignment of
    the dictionary [unique_fields]: the statements that follow it (lines
    208-216, from [seen = set()] to [return unique_data]) are indented at the
    level of [def], so they are not part of the method.  The method looks at
    neither argument and returns [None], written [None] here as well.  (Where
    they stand, lines 208-216 are statements of the class body, and a
    [return] there is an error that Python reports when it compiles the
    module.) *)
Definition prevent_duplicate_entries (processed_data : list (gmap string value))
    (category : string) : option (list (gmap string value)) :=
  let _ := unique_fields in None.

(** *** Lines 208-216

    The statements that the indentation leaves outside the method, as the
    function of [processed_data] and [category] that they compute when they
    are read as the body of a function.  Nothing below is stated about
    [prevent_duplicate_entries] through them; they serve as a sample
    duplicate filter for concrete runs of [process_data]. *)

(** Line 211: [tuple(entry[field] for field in unique_fields[category])] *)
Definition dedup_key (category : string) (entry : gmap string value)
  : result (list value) :=
  fields ← lookup_literal unique_fields category;
  mapM (getitem entry) fields.

(** Lines 211-214, one iteration of the loop: [seen] and [unique_data]. *)
Definition dedup_entry (category : string)
    (st : gset (list value) * list (gmap string value))
    (entry : gmap string value)
  : result (gset (list value) * list (gmap string value)) :=
  key ← dedup_key category entry;
  if bool_decide (key ∉ st.1) then Ok ({[key]} ∪ st.1, st.2 ++ [entry])
  else Ok st.

(** Lines 208-216: the value of [unique_data] at the [return]. *)
Definition unique_data (processed_data : list (gmap string value))
    (category : string) : result (list (gmap string value)) :=
  st ← for_each (dedup_entry category) (∅, []) processed_data;
  Ok st.2.

(** ** The ingestion run ([process_data]) *)

(** A value of the persisted document [data.json]: the record list of a
    category, or the dictionary stored under ["identifiers"]. *)
Inductive json :=
  | JList (entries : list (gmap string value))
  | JDict (d : gmap value string).

Global Instance json_eq_dec : EqDecision json.
Proof. solve_decision. Defined.

(** What a run works on: the document on disk ([None] while the file does
    not exist) and the binding of the module-level name
    [unique_identifiers], which [process_data] declares [global] ([None]
    while the name is unbound; [app.py] itself never binds it). *)
Record world := World {
  disk : option (gmap string json);
  unique_identifiers : option (gmap value string)
}.

Global Instance world_eq_dec : EqDecision world.
Proof. solve_decision. Defined.

(** What the user and the environment contribute to one run: the two
    attributes set by [handle_upload], the rows [pd.read_csv(...).to_dict]
    delivers (or the exception it raises), and whether reading or writing
    the document fails during this run. *)
Record upload := Upload {
  file_path : option string;
  data_category : option string;
  csv_rows : result (list (gmap string value));
  load_fault : bool;
  save_fault : bool
}.

(** How a run ends: one of the two early returns, the [except] branch, or the
    success dialog after the save. *)
Inductive outcome :=
  | NoFileUploaded
  | CategoryNotDetected
  | Failed (e : exn)
  | Saved.

Global Instance outcome_eq_dec : EqDecision outcome.
Proof. solve_decision. Defined.

(** [not x] for an attribute that is [None] or a string. *)
Definition falsy (x : option string) : bool :=
  match x with
  | None => true
  | Some s => bool_decide (s = "")
  end.

(** Modelled from the spec: [load_json_data] belongs to the module [utils],
    which is not part of the sources.  Section 4.5: load "returns an empty
    store, not a failure, when no prior store exists"; section 7: a load that
    fails is a persistence error that ends the run. *)
Definition load_json_data (fault : bool) (d : option (gmap string json))
  : result (gmap string json) :=
  if fault then Raise OSError else Ok (default ∅ d).

(** Modelled from the spec: [save_json_data] belongs to the module [utils],
    which is not part of the sources.  Section 4.5: save "durably and
    atomically persists the full store", an all-or-nothing commit: a save
    that fails leaves the document as it was. *)
Definition save_json_data (fault : bool) (data : gmap string json)
    (d : option (gmap string json)) : result (option (gmap string json)) :=
  if fault then Raise OSError else Ok (Some data).

(** Lines 144-147, one iteration:
    [if category not in existing_data: existing_data[category] = []] and
    [existing_data[category].extend(entries)]. *)
Definition merge_category (existing_data : gmap string json)
    (item : string * list (gmap string value)) : result (gmap string json) :=
  let existing_data :=
    if bool_decide (existing_data !! item.1 = None)
    then <[item.1 := JList []]> existing_data else existing_data in
  match existing_data !! item.1 with
  | Some (JList l) => Ok (<[item.1 := JList (l ++ item.2)]> existing_data)
  | Some (JDict _) => Raise AttributeError
  | None => Raise (KeyError (VStr item.1))
  end.

(** The loop [for category, entries in final_data.items()].  [final_data]
    is a dictionary, so its keys are distinct; the order of iteration only
    decides which category raises first. *)
Definition merge (final_data : gmap string (list (gmap string value)))
    (existing_data : gmap string json) : result (gmap string json) :=
  for_each merge_category existing_data (map_to_list final_data).

(** [existing_data.get('identifiers', {}).items()], collected into the
    dictionary that the comprehension of lines 151-154 builds. *)
Definition stored_identifiers (existing_data : gmap string json)
  : result (gmap value string) :=
  match existing_data !! "identifiers" with
  | None => Ok ∅
  | Some (JDict d) => Ok d
  | Some (JList _) => Raise AttributeError
  end.

Section run.

(** [parse(s).strftime('%Y-%m-%dT%H:%M:%S')] of dateutil on a string: the
    canonical timestamp, or the exception raised. *)
Variable parse_strftime : string → result string.

(** The two functions of [utils] that [process_data] calls on the rows.
    The module [utils] is not part of the sources, so they are parameters;
    each is a function of the one argument it is called with (the persisted
    document is not passed to either). *)
Variable detect_and_categorize :
  list (gmap string value) → result (gmap string (list (gmap string value))).
Variable prevent_duplicates :
  gmap string (list (gmap string value)) →
  result (gmap string (list (gmap string value))).

(** [parse(row[field]).strftime(...)]: dateutil raises [TypeError] for
    an argument that is neither a string nor a stream. *)
Definition parse_cell (v : value) : result string :=
  match v with
  | VStr s => parse_strftime s
  | _ => Raise TypeError
  end.

(** Lines 133-137 for one [field] of one [row]. *)
Definition standardize_field (row : gmap string value) (field : string)
  : result (gmap string value) :=
  match row !! field with
  | None => Ok row
  | Some v =>
      match parse_cell v with
      | Ok t => Ok (<[field := VStr t]> row)
      | Raise ValueError => Ok (<[field := VNone]> row)
      | Raise e => Raise e
      end
  end.

Definition time_fields : list string := ["Time"; "Last Contacted"; "Installed Date"].

(** Lines 131-137: the body of [for row in csv_data]. *)
Definition standardize_row (row : gmap string value) : result (gmap string value) :=
  for_each standardize_field row time_fields.

(** What lines 133-137 do to the cell of one field: absent stays absent; a
    string is replaced by its canonical form, or by [None] when the parser
    raises [ValueError]. *)
Definition normalised_cell (before after : option value) : Prop :=
  match before with
  | None => after = None
  | Some v =>
      ∃ s, v = VStr s ∧
           ((∃ t, parse_strftime s = Ok t ∧ after = Some (VStr t)) ∨
            (parse_strftime s = Raise ValueError ∧ after = Some VNone))
  end.

(** A cell that lines 133-137 can handle: absent, or a string that the
    parser accepts or rejects with [ValueError]. *)
Definition parsable_cell (cell : option value) : Prop :=
  match cell with
  | None => True
  | Some v =>
      ∃ s, v = VStr s ∧
           (is_Ok (parse_strftime s) ∨ parse_strftime s = Raise ValueError)
  end.

(** Lines 127-141: the records a run is about to merge.  They are computed
    from the uploaded rows alone. *)
Definition final_data (u : upload)
  : result (gmap string (list (gmap string value))) :=
  csv_data ← csv_rows u;
  csv_data ← mapM standardize_row csv_data;
  categorized_data ← detect_and_categorize csv_data;
  prevent_duplicates categorized_data.

(** Lines 124-147: everything the [try] block computes before it touches
    the global name and the disk. *)
Definition prepare (u : upload) (w : world) : result (gmap string json) :=
  existing_data ← load_json_data (load_fault u) (disk w);
  csv_data ← csv_rows u;
  csv_data ← mapM standardize_row csv_data;
  categorized_data ← detect_and_categorize csv_data;
  final_data ← prevent_duplicates categorized_data;
  merge final_data existing_data.

(** The [try] block: the world it leaves and [Ok] or the exception that
    the [except] branch catches. *)
Definition try_block (u : upload) (w : world) : world * result unit :=
  match prepare u w with
  | Raise e => (w, Raise e)
  | Ok existing_data =>
      match unique_identifiers w with
      | None => (w, Raise (NameError "unique_identifiers"))
      | Some ids =>
          match stored_identifiers existing_data with
          | Raise e => (w, Raise e)
          | Ok stored =>
              let w' := World (disk w) (Some (stored ∪ ids)) in
              match save_json_data (save_fault u) existing_data (disk w) with
              | Raise e => (w', Raise e)
              | Ok d => (World d (Some (stored ∪ ids)), Ok ())
              end
          end
      end
  end.

(** [process_data(self)]: the world after the call and how the call ended.
    [Saved] stands for the path on which [save_json_data] has returned. *)
Definition process_data (u : upload) (w : world) : world * outcome :=
  if falsy (file_path u) then (w, NoFileUploaded)
  else if falsy (data_category u) then (w, CategoryNotDetected)
  else match try_block u w with
       | (w', Ok _) => (w', Saved)
       | (w', Raise e) => (w', Failed e)
       end.

End run.

(** Concrete runs need concrete functions in place of [detect_and_categorize]
    and [prevent_duplicates].  The two below are sample values for these
    parameters, put together from what [app.py] holds: the rows go under the
    category that [detect_data_category] finds for their columns, and the
    statements of lines 208-216 are applied to the rows of each category.
    They say nothing about what the functions of [utils] do. *)
Definition categorize_by_columns (csv_data : list (gmap string value))
  : result (gmap string (list (gmap string value))) :=
  match csv_data with
  | [] => Ok ∅
  | row :: _ =>
      match detect_data_category (elements (dom row)) with
      | Some category => Ok {[ category := csv_data ]}
      | None => Raise (OtherError "UnrecognizedCategory")
      end
  end.

Definition filter_category (acc : gmap string (list (gmap string value)))
    (item : string * list (gmap string value))
  : result (gmap string (list (gmap string value))) :=
  kept ← unique_data item.2 item.1;
  Ok (<[item.1 := kept]> acc).

Definition filter_each_category (categorized_data : gmap string (list (gmap string value)))
  : result (gmap string (list (gmap string value))) :=
  for_each filter_category ∅ (map_to_list categorized_data).

(** ** Receiving an upload ([handle_upload]) *)

(** [s.endswith(suffix)] *)
Definition endswith (s suffix : string) : bool :=
  bool_decide (list_ascii_of_string suffix `suffix_of` list_ascii_of_string s).

(** [os.path.join(a, b)] of [posixpath] for two components. *)
Definition os_path_join (a b : string) : string :=
  if String.prefix "/" b then b
  else if bool_decide (a = "") || endswith a "/" then a +:+ b
  else a +:+ "/" +:+ b.

Module Upload.
Import Equations.Prop.Equations.

(** Lines 66-71: the loop that copies the uploaded stream into the file,
    1024 bytes at a time, until [read] returns nothing.  [stream] is what is
    left to read, [written] what the file holds so far. *)
Equations? write_chunks (stream written : list Byte.byte) : list Byte.byte
  by wf (length stream) lt :=
  write_chunks stream written with Equations.Prop.Logic.inspect (take 1024 stream) := {
    | exist _ [] _ := written;
    | exist _ (b :: chunk) Hchunk :=
        write_chunks (drop 1024 stream) (written ++ b :: chunk) }.
Proof.
  destruct stream as [|b0 stream]; [done|].
  rewrite length_drop. simpl. lia.
Defined.

End Upload.

(** The argument of [handle_upload]: [e.content] ([None] when the object is
    falsy, otherwise the bytes it delivers) and [e.name]. *)
Record upload_event := UploadEvent {
  content : option (list Byte.byte);
  name : string
}.

(** What [handle_upload] reads and writes apart from the widgets: the two
    attributes that [process_data] checks, and the files on disk, under the
    path strings by which they are opened (two strings that name one file,
    as [x.csv] and [./x.csv] do, are not identified). *)
Record app := App {
  self_file_path : option string;
  self_data_category : option string;
  files : gmap string (list Byte.byte)
}.

(** [__init__(self)]: no path and no category; the files are what the disk
    holds when the application starts. *)
Definition __init__ (fs : gmap string (list Byte.byte)) : app := App None None fs.

Section upload.

(** [os.path.dirname(os.path.abspath(__file__))] *)
Variable app_dir : string.

(** Line 15: the path of the document. *)
Definition JSON_DB_PATH : string := os_path_join app_dir "data.json".

(** [pd.read_csv] on the bytes of a file: the column names and the rows
    ([df.columns] and [df.to_dict(orient='records')]), or the exception
    raised. *)
Variable read_csv :
  list Byte.byte → result (list string * list (gmap string value)).

(** Whether [open(path, 'wb')] succeeds: it raises [OSError] (an absent
    directory on the way, a directory under that name, a missing permission)
    without creating or changing a file.  Once the file is open, reading the
    upload and writing the file are taken to succeed. *)
Variable open_wb : string → bool.

(** [pd.read_csv(path)] *)
Definition read_csv_file (fs : gmap string (list Byte.byte)) (path : string)
  : result (list string * list (gmap string value)) :=
  match fs !! path with
  | Some bytes => read_csv bytes
  | None => Raise OSError
  end.

(** [handle_upload(self, e)]: the state the call leaves, and [Ok] when it
    returns or the exception that leaves it.  [show_error_dialog] and
    [reset_ui] touch widgets only, so the branches that end with them leave
    the state as it is at that point.  Line 64 sets [self.file_path] before
    line 66 opens the file, and the [with] statement is outside the [try]: an
    [open] that fails ends the call with the path set, no file written and
    the category as it was. *)
Definition handle_upload (e : upload_event) (a : app) : app * result unit :=
  match content e with
  | None => (a, Ok ())
  | Some stream =>
      let filename := name e in
      if negb (endswith filename ".csv") then (a, Ok ())
      else
        let path := os_path_join app_dir filename in
        if negb (open_wb path) then
          (App (Some path) (self_data_category a) (files a), Raise OSError)
        else
          let fs := <[path := Upload.write_chunks stream []]> (files a) in
          match read_csv_file fs path with
          | Ok (columns, _) => (App (Some path) (detect_data_category columns) fs, Ok ())
          | Raise _ => (App (Some path) (self_data_category a) fs, Ok ())
          end
  end.

(** What [process_data] finds when it is called in state [a]: the two
    attributes, and the rows of the file that [self.file_path] names. *)
Definition request (a : app) (load_fault save_fault : bool) : upload :=
  Upload (self_file_path a) (self_data_category a)
    (match self_file_path a with
     | Some path => snd <$> read_csv_file (files a) path
     | None => Raise ValueError
     end)
    load_fault save_fault.

End upload.

(** ** Vocabulary of the properties *)

(** Every identifier of the table has a numeric suffix that line 176 can
    read: the table is one that [initial_next_id] accepts. *)
Definition well_formed (identifiers : gmap value string) : Prop :=
  map_Forall (λ _ id, is_Ok (id_number id)) identifiers.

(** No identifier is shared by two identity values. *)
Definition distinct_identifiers (identifiers : gmap value string) : Prop :=
  ∀ k1 k2 id, identifiers !! k1 = Some id → identifiers !! k2 = Some id → k1 = k2.

(** [m] is the highest numeric suffix in the table. *)
Definition highest_suffix (identifiers : gmap value string) (m : N) : Prop :=
  (∃ k id, identifiers !! k = Some id ∧ id_number id = Ok m) ∧
  map_Forall (λ _ id, ∃ m', id_number id = Ok m' ∧ (m' ≤ m)%N) identifiers.

(** [n] is one more than the highest numeric suffix in the table, 1 if the
    table is empty. *)
Definition next_number (identifiers : gmap value string) (n : N) : Prop :=
  (identifiers = ∅ ∧ n = 1%N) ∨ (∃ m, highest_suffix identifiers m ∧ n = (m + 1)%N).

(** The record [entry] with [id] attached as its identifier. *)
Definition with_identifier (id : string) (entry : gmap string value)
  : gmap string value :=
  <["identifier" := VStr id]> entry.

(** The output record [out] is the input record [entry] with the identifier
    that the table holds for its identity value (the value of [field]). *)
Definition attached (field : string) (identifiers : gmap value string)
    (entry out : gmap string value) : Prop :=
  ∃ sender id,
    entry !! field = Some sender ∧ identifiers !! sender = Some id ∧
    out = with_identifier id entry.

(** The tables the program can build: the empty table, and whatever a call
    of the method returns when it is given such a table. *)
Inductive reachable_table : gmap value string → Prop :=
  | reachable_empty : reachable_table ∅
  | reachable_assign (T T' : gmap value string) (data out : list (gmap string value))
      (category : string) :
      reachable_table T →
      assign_unique_identifiers data category (Some T) = Ok (out, T') →
      reachable_table T'.

(** The numerals that extend [d] by one leading digit, and all numerals of
    one to three digits. *)
Definition one_more_digit (d : uint) : list uint :=
  [D0 d; D1 d; D2 d; D3 d; D4 d; D5 d; D6 d; D7 d; D8 d; D9 d].

Definition up_to_three_digits : list uint :=
  let one := one_more_digit Nil in
  let two := one ≫= one_more_digit in
  one ++ two ++ (two ≫= one_more_digit).

(** The records stored for a category in the persisted document. *)
Definition stored_records (existing_data : gmap string json) (category : string)
  : list (gmap string value) :=
  match existing_data !! category with
  | Some (JList l) => l
  | _ => []
  end.

(** The categories that have an identity field, each with its field: all
    but Keylog and Installed Apps (specification, section 3), the field being
    the one of [Sender], [From/To] and [Name] (specification, glossary) that
    is a required column of the category. *)
Definition identity_fields : list (string * string) :=
  [ ("Messenger", "Sender"); ("SMS", "From/To"); ("Calls", "From/To");
    ("Contacts", "Name") ].

(** The identity values of a batch, in order (the values of [field]). *)
Definition identity_values (field : string) (data : list (gmap string value))
  : list value :=
  omap (λ entry, entry !! field) data.

(** [out] is the record [entry], possibly with an identifier attached. *)
Definition labelled (entry out : gmap string value) : Prop :=
  out = entry ∨ ∃ id, out = with_identifier id entry.

(** The upload is one that [handle_upload] turns away: it has no content,
    or its name does not end in [.csv]. *)
Definition rejected (e : upload_event) : Prop :=
  content e = None ∨ endswith (name e) ".csv" = false.

(** A category of the registry that comes no later than [category] in the
    order of [categories]. *)
Definition no_later (earlier category : string) : Prop :=
  ∃ i j : nat,
    categories.*1 !! i = Some earlier ∧ categories.*1 !! j = Some category ∧ (i ≤ j)%nat.

(** * Properties *)

(** ** Results and loops *)

Lemma bind_Ok {A B} (a : A) (f : A → result B) : Ok a ≫= f = f a.
Proof. reflexivity. Qed.

Lemma for_each_cons {S A} (body : S → A → result S) (st : S) (x : A) (xs : list A) :
  for_each body st (x :: xs) = st' ← body st x; for_each body st' xs.
Proof. reflexivity. Qed.

Lemma for_each_app {S A} (body : S → A → result S) (st : S) (xs ys : list A) :
  for_each body st (xs ++ ys) = st' ← for_each body st xs; for_each body st' ys.
Proof.
  revert st. induction xs as [|x xs IH]; intros st; simpl; [done|].
  destruct (body st x) as [st'|e]; simpl; [apply IH | done].
Qed.

Lemma for_each_snoc {S A} (body : S → A → result S) (st : S) (xs : list A) (x : A) :
  for_each body st (xs ++ [x]) = st' ← for_each body st xs; body st' x.
Proof.
  rewrite for_each_app. destruct (for_each body st xs) as [st'|e]; simpl; [|done].
  by destruct (body st' x).
Qed.

(** An invariant of the loop body holds after the loop. *)
Lemma for_each_invariant {S A} (P : S → Prop) (body : S → A → result S)
    (st st' : S) (xs : list A) :
  (∀ s x s', x ∈ xs → P s → body s x = Ok s' → P s') →
  P st → for_each body st xs = Ok st' → P st'.
Proof.
  revert st. induction xs as [|x xs IH]; intros st Hbody HP Hrun; simpl in *.
  - by injection Hrun as <-.
  - destruct (body st x) as [s1|e] eqn:Hx; simpl in Hrun; [|done].
    apply (IH s1); [|by eapply Hbody; [left| |]|done].
    intros s y s' Hy. apply Hbody. by right.
Qed.

Lemma mapM_result_Ok {A B} (f : A → result B) (l : list A) (k : list B) :
  mapM f l = Ok k ↔ Forall2 (λ x y, f x = Ok y) l k.
Proof.
  revert k. induction l as [|x l IH]; intros k; simpl.
  - split; [intros [= <-]; constructor | by inversion 1].
  - destruct (f x) as [y|e] eqn:Hx; simpl.
    + destruct (mapM f l) as [k'|e'] eqn:Hl; simpl.
      * split.
        -- intros [= <-]. constructor; [done|]. by apply IH.
        -- inversion 1 as [|? y' ? k'' Hy Hk]; simplify_eq.
           apply IH in Hk. rewrite Hx in Hy. by simplify_eq.
      * split; [done|]. inversion 1 as [|? y' ? k'' Hy Hk]; simplify_eq.
        by apply IH in Hk.
    + split; [done|]. inversion 1; congruence.
Qed.

Lemma mapM_result_total {A B} (f : A → result B) (l : list A) :
  Forall (λ x, is_Ok (f x)) l → is_Ok (mapM f l).
Proof.
  induction 1 as [|x l [y Hy] _ [k Hk]]; simpl; [by eexists|].
  rewrite Hy; simpl. rewrite Hk; simpl. by eexists.
Qed.

Lemma mapM_result_app {A B} (f : A → result B) (l1 l2 : list A) (k : list B) :
  mapM f (l1 ++ l2) = Ok k ↔
  ∃ k1 k2, k = k1 ++ k2 ∧ mapM f l1 = Ok k1 ∧ mapM f l2 = Ok k2.
Proof.
  rewrite mapM_result_Ok. split.
  - intros (k1 & k2 & H1 & H2 & ->)%Forall2_app_inv_l.
    exists k1, k2. by rewrite !mapM_result_Ok.
  - intros (k1 & k2 & -> & H1 & H2). apply Forall2_app; by apply mapM_result_Ok.
Qed.

(** ** Category detection *)

Lemma all_in_subseteq (columns required : list string) :
  all_in columns required = true ↔ required ⊆ columns.
Proof.
  unfold all_in. rewrite <-Is_true_true, forallb_True, Forall_forall.
  split; intros H col Hcol.
  - by eapply bool_decide_unpack, H.
  - by apply bool_decide_pack, H.
Qed.

Lemma first_match_Some (columns : list string) (cats : list (string * list string))
    (category : string) :
  first_match columns cats = Some category ↔
  ∃ (i : nat) required,
    cats !! i = Some (category, required) ∧ required ⊆ columns ∧
    ∀ (j : nat) c r, j < i → cats !! j = Some (c, r) → ¬ r ⊆ columns.
Proof.
  induction cats as [|[c0 r0] cats IH]; simpl.
  - split; [done|]. by intros (i & r & ? & _).
  - destruct (all_in columns r0) eqn:Hr0.
    + apply all_in_subseteq in Hr0. split.
      * intros [= <-]. exists 0, r0. split_and!; [done..|]. intros; lia.
      * intros ([|i] & r & Hi & Hr & Hfirst); simpl in Hi; [congruence|].
        destruct (Hfirst 0 c0 r0); [lia|done..].
    + assert (¬ r0 ⊆ columns) as Hn by (rewrite <-all_in_subseteq; congruence).
      rewrite IH. split.
      * intros (i & r & Hi & Hr & Hfirst). exists (S i), r. split_and!; [done..|].
        intros [|j] c r' Hj Hlk; simpl in Hlk; [by simplify_eq|].
        apply (Hfirst j c r'); [lia|done].
      * intros ([|i] & r & Hi & Hr & Hfirst); simpl in Hi; [by simplify_eq|].
        exists i, r. split_and!; [done..|].
        intros j c r' Hj Hlk. apply (Hfirst (S j) c r'); [lia|done].
Qed.

Lemma first_match_None (columns : list string) (cats : list (string * list string)) :
  first_match columns cats = None ↔ ∀ c r, (c, r) ∈ cats → ¬ r ⊆ columns.
Proof.
  induction cats as [|[c0 r0] cats IH]; simpl.
  - split; [|done]. intros _ c r H. by apply elem_of_nil in H.
  - destruct (all_in columns r0) eqn:Hr0.
    + apply all_in_subseteq in Hr0. split; [done|].
      intros H. destruct (H c0 r0); [left|done].
    + assert (¬ r0 ⊆ columns) as Hn by (rewrite <-all_in_subseteq; congruence).
      rewrite IH. split.
      * intros H c r [?|?]%elem_of_cons; [by simplify_eq|by apply (H c)].
      * intros H c r Hin. apply (H c). by right.
Qed.

Lemma first_match_ext (columns columns' : list string) cats :
  (∀ col, col ∈ columns ↔ col ∈ columns') →
  first_match columns' cats = first_match columns cats.
Proof.
  intros Hext. induction cats as [|[c0 r0] cats IH]; simpl; [done|].
  assert (all_in columns' r0 = all_in columns r0) as ->; [|by rewrite IH].
  apply eq_bool_prop_intro. rewrite !Is_true_true, !all_in_subseteq.
  split; intros H col Hcol; apply Hext, H, Hcol.
Qed.

(** C5: [detect_data_category] tries the categories in the order Messenger,
    SMS, Calls, Keylog, Contacts, Installed Apps and returns the first one
    whose required columns are all among the column names (extra columns do
    not matter); it returns [None] exactly when no category's required
    columns are all present; its result depends only on the set of column
    names, so the same column set always gives the same category. *)
Theorem detect_data_category_first_match (columns : list string) :
  categories.*1 = ["Messenger"; "SMS"; "Calls"; "Keylog"; "Contacts"; "Installed Apps"] ∧
  (∀ category,
     detect_data_category columns = Some category ↔
     ∃ (i : nat) required,
       categories !! i = Some (category, required) ∧ required ⊆ columns ∧
       ∀ (j : nat) c r, j < i → categories !! j = Some (c, r) → ¬ r ⊆ columns) ∧
  (detect_data_category columns = None ↔
     ∀ c r, (c, r) ∈ categories → ¬ r ⊆ columns) ∧
  (∀ columns', (∀ col, col ∈ columns ↔ col ∈ columns') →
     detect_data_category columns' = detect_data_category columns).
Proof.
  split_and!.
  - reflexivity.
  - intros category. apply first_match_Some.
  - apply first_match_None.
  - intros columns'. apply first_match_ext.
Qed.

(** ** Identifiers: printing and reading the numeric suffix *)

Lemma append_nil (s : string) : "" +:+ s = s.
Proof. reflexivity. Qed.

Lemma append_cons (c : ascii) (s t : string) : String c s +:+ t = String c (s +:+ t).
Proof. reflexivity. Qed.

Lemma uint_of_string_zeros (k : nat) (s : string) :
  NilEmpty.uint_of_string (zeros k +:+ s) =
  Nat.iter k D0 <$> NilEmpty.uint_of_string s.
Proof.
  induction k as [|k IH].
  - rewrite append_nil. by destruct (NilEmpty.uint_of_string s).
  - change (zeros (S k) +:+ s) with (String "0" (zeros k +:+ s)). simpl.
    rewrite IH. by destruct (NilEmpty.uint_of_string s).
Qed.

Lemma of_uint_leading_zeros (k : nat) (d : uint) :
  N.of_uint (Nat.iter k D0 d) = N.of_uint d.
Proof. induction k as [|k IH]; [done|]. simpl. exact IH. Qed.

Lemma to_uint_nonnil (n : N) : N.to_uint n ≠ Nil.
Proof.
  rewrite <-(Unsigned.of_to n) at 1. rewrite Unsigned.to_of.
  apply DecimalFacts.unorm_nonnil.
Qed.

Lemma python_int_format_03d (n : N) : python_int (format_03d n) = Ok n.
Proof.
  unfold python_int, format_03d.
  pose proof (NilZero.usu (N.to_uint n) (to_uint_nonnil n)) as Hd.
  set (digits := NilZero.string_of_uint (N.to_uint n)) in *. clearbody digits.
  assert (NilEmpty.uint_of_string digits = Some (N.to_uint n)) as Hd'.
  { destruct digits; [done|exact Hd]. }
  assert (NilZero.uint_of_string (zeros (3 - String.length digits) +:+ digits)
          = Some (Nat.iter (3 - String.length digits) D0 (N.to_uint n))) as ->.
  { pose proof (uint_of_string_zeros (3 - String.length digits) digits) as Hz.
    rewrite Hd' in Hz. simpl in Hz. rewrite <-Hz.
    unfold NilZero.uint_of_string.
    destruct (zeros (3 - String.length digits) +:+ digits) eqn:Hs; [|done].
    destruct digits; [done|]. by destruct (3 - _)%nat. }
  by rewrite of_uint_leading_zeros, Unsigned.of_to.
Qed.

Lemma split_on_digits (s : string) (d : uint) :
  NilEmpty.uint_of_string s = Some d → split_on "_" s = [s].
Proof.
  revert d. induction s as [|c s IH]; intros d; simpl; [done|].
  destruct (NilEmpty.uint_of_string s) as [d'|] eqn:Hs; [|done].
  intros Hc. rewrite (IH d' eq_refl).
  apply uint_of_char_spec in Hc.
  destruct Hc as [[-> _]|[[-> _]|[[-> _]|[[-> _]|[[-> _]|[[-> _]|[[-> _]|[[-> _]|[[-> _]|[-> _]]]]]]]]]];
    reflexivity.
Qed.

Lemma python_int_digits (s : string) (n : N) :
  python_int s = Ok n → split_on "_" s = [s].
Proof.
  unfold python_int, NilZero.uint_of_string. destruct s as [|c s]; [done|].
  destruct (NilEmpty.uint_of_string (String c s)) as [d|] eqn:Hd; [|done].
  intros _. by eapply split_on_digits.
Qed.

(** Reading back the identifier minted for [n] gives [n]: the format loses
    nothing, whatever the size of [n]. *)
Lemma id_number_format_id (n : N) : id_number (format_id n) = Ok n.
Proof.
  unfold id_number, format_id. rewrite !append_cons, append_nil. simpl.
  rewrite (python_int_digits _ n (python_int_format_03d n)). simpl.
  apply python_int_format_03d.
Qed.

Lemma format_id_inj (n m : N) : format_id n = format_id m → n = m.
Proof.
  intros H. pose proof (id_number_format_id n) as Hn.
  rewrite H, id_number_format_id in Hn. by injection Hn.
Qed.

Lemma uint_of_string_cons (c : ascii) (s : string) (d : uint) :
  NilEmpty.uint_of_string (String c s) = Some d →
  ∃ d', NilEmpty.uint_of_string s = Some d' ∧ d ∈ one_more_digit d'.
Proof.
  simpl. destruct (NilEmpty.uint_of_string s) as [d'|]; [|done].
  intros H%uint_of_char_spec. exists d'. split; [done|].
  unfold one_more_digit. rewrite !elem_of_cons.
  destruct H as [[_ ->]|[[_ ->]|[[_ ->]|[[_ ->]|[[_ ->]|[[_ ->]|[[_ ->]|[[_ ->]|[[_ ->]|[_ ->]]]]]]]]]];
    repeat (first [left; reflexivity | right]).
Qed.

Lemma forallb_Forall {A} (f : A → bool) (l : list A) :
  forallb f l = true → Forall (λ x, f x = true) l.
Proof.
  induction l as [|x l IH]; simpl; [constructor|].
  intros [Hx Hl]%andb_true_iff. constructor; auto.
Qed.

Lemma up_to_three_digits_below_1000 :
  Forall (λ d, (N.of_uint d < 1000)%N) up_to_three_digits.
Proof.
  assert (forallb (λ d, N.ltb (N.of_uint d) 1000) up_to_three_digits = true) as H
    by (vm_compute; reflexivity).
  eapply Forall_impl; [exact (forallb_Forall _ _ H)|].
  intros d Hd. by apply N.ltb_lt.
Qed.

(** A numeral of at most three digits is below 1000. *)
Lemma python_int_three_digits (s : string) (n : N) :
  python_int s = Ok n → (String.length s ≤ 3)%nat → (n < 1000)%N.
Proof.
  unfold python_int, NilZero.uint_of_string.
  destruct s as [|a s]; [done|].
  destruct (NilEmpty.uint_of_string (String a s)) as [d|] eqn:Hd; [|done].
  intros [= <-] Hlen.
  pose proof up_to_three_digits_below_1000 as Hall.
  rewrite Forall_forall in Hall. apply Hall. clear Hall.
  unfold up_to_three_digits. rewrite !elem_of_app, !list_elem_of_bind.
  apply uint_of_string_cons in Hd as (d1 & H1 & Hd).
  destruct s as [|b s]; [injection H1 as <-; by left|].
  apply uint_of_string_cons in H1 as (d2 & H2 & Hd1).
  destruct s as [|c s]; [injection H2 as <-; right; left; eauto|].
  apply uint_of_string_cons in H2 as (d3 & H3 & Hd2).
  destruct s as [|c' s]; [injection H3 as <-|simpl in Hlen; lia].
  right; right. exists d1. split; [done|]. apply list_elem_of_bind. eauto.
Qed.

Lemma length_zeros_append (k : nat) (s : string) :
  String.length (zeros k +:+ s) = (k + String.length s)%nat.
Proof.
  induction k as [|k IH]; [done|].
  change (zeros (S k) +:+ s) with (String "0" (zeros k +:+ s)). simpl. by rewrite IH.
Qed.

Lemma length_format_03d (n : N) : (3 ≤ String.length (format_03d n))%nat.
Proof. unfold format_03d. rewrite length_zeros_append. lia. Qed.

(** From 1000 on the numeral is wider than three characters. *)
Lemma length_format_03d_wide (n : N) :
  (1000 ≤ n)%N → (3 < String.length (format_03d n))%nat.
Proof.
  intros Hn. destruct (decide (String.length (format_03d n) ≤ 3)%nat) as [Hle|]; [|lia].
  pose proof (python_int_three_digits _ n (python_int_format_03d n) Hle). lia.
Qed.

(** Below 1000 it has exactly three characters. *)
Lemma length_format_03d_narrow (n : N) :
  (n < 1000)%N → String.length (format_03d n) = 3%nat.
Proof.
  intros Hn.
  assert (forallb (λ k, Nat.eqb (String.length (format_03d (N.of_nat k))) 3) (seq 0 1000)
          = true) as H by (vm_compute; reflexivity).
  pose proof (forallb_Forall _ _ H) as H'. rewrite Forall_forall in H'.
  specialize (H' (N.to_nat n)). rewrite N2Nat.id in H'.
  apply Nat.eqb_eq, H', elem_of_seq. lia.
Qed.

(** ** The identifier table *)

Lemma max_of_upper (ns : list N) (n : N) : n ∈ ns → (n ≤ max_of ns)%N.
Proof.
  induction ns as [|m ns IH]; simpl.
  - by intros ?%elem_of_nil.
  - intros [->|Hin]%elem_of_cons; [lia|]. specialize (IH Hin). lia.
Qed.

Lemma max_of_elem (ns : list N) : ns ≠ [] → max_of ns ∈ ns.
Proof.
  induction ns as [|m ns IH]; [done|]. intros _. simpl.
  destruct ns as [|m' ns].
  - simpl. replace (N.max m 0) with m by lia. by left.
  - destruct (N.max_spec m (max_of (m' :: ns))) as [[_ ->]|[_ ->]].
    + right. by apply IH.
    + by left.
Qed.

Lemma highest_suffix_unique (T : gmap value string) (m m' : N) :
  highest_suffix T m → highest_suffix T m' → m = m'.
Proof.
  intros [(k & id & Hk & Hid) Hall] [(k' & id' & Hk' & Hid') Hall'].
  destruct (Hall k' id' Hk') as (n & Hn & Hle).
  destruct (Hall' k id Hk) as (n' & Hn' & Hle').
  rewrite Hid in Hn'. rewrite Hid' in Hn. simplify_eq. lia.
Qed.

Lemma values_elem_of (T : gmap value string) (id : string) :
  id ∈ (map_to_list T).*2 ↔ ∃ k, T !! k = Some id.
Proof.
  rewrite list_elem_of_fmap. split.
  - intros ([k id'] & -> & Hin). exists k. by apply elem_of_map_to_list.
  - intros [k Hk]. exists (k, id). split; [done|]. by apply elem_of_map_to_list.
Qed.

Lemma initial_next_id_next_number (T : gmap value string) (n : N) :
  initial_next_id T = Ok n → next_number T n.
Proof.
  unfold initial_next_id.
  destruct ((map_to_list T).*2) as [|id0 ids] eqn:Hids.
  - intros [= <-]. left. split; [|done].
    apply map_to_list_empty_iff. by apply fmap_nil_inv in Hids.
  - rewrite <-Hids.
    destruct (mapM id_number (map_to_list T).*2) as [ns|e] eqn:Hns; simpl; [|done].
    intros [= <-]. right. exists (max_of ns). split; [|done].
    apply mapM_result_Ok in Hns.
    assert (ns ≠ []) as Hne.
    { intros ->. rewrite Hids in Hns. inversion Hns. }
    split.
    + apply max_of_elem, list_elem_of_lookup in Hne as [i Hi].
      destruct (Forall2_lookup_r _ _ _ _ _ Hns Hi) as (id & Hid & Hnum).
      apply list_elem_of_lookup_2, values_elem_of in Hid as [k Hk]. eauto.
    + intros k id Hk.
      assert (id ∈ (map_to_list T).*2) as [i Hi]%list_elem_of_lookup
        by (apply values_elem_of; eauto).
      destruct (Forall2_lookup_l _ _ _ _ _ Hns Hi) as (m' & Hm' & Hnum).
      exists m'. split; [done|]. eapply max_of_upper, list_elem_of_lookup_2, Hm'.
Qed.

Lemma well_formed_initial_next_id (T : gmap value string) :
  well_formed T → is_Ok (initial_next_id T).
Proof.
  intros Hwf. unfold initial_next_id.
  destruct ((map_to_list T).*2) as [|id0 ids] eqn:Hids; [by eexists|].
  rewrite <-Hids.
  destruct (mapM_result_total id_number (map_to_list T).*2) as [ns Hns].
  { apply Forall_forall. intros id [k Hk]%values_elem_of. by apply (Hwf k). }
  rewrite Hns. simpl. by eexists.
Qed.

Lemma next_number_well_formed (T : gmap value string) (n : N) :
  next_number T n → well_formed T.
Proof.
  intros [[-> _]|(m & [_ Hall] & _)] k id Hk.
  - by rewrite lookup_empty in Hk.
  - destruct (Hall k id Hk) as (m' & Hm' & _). by exists m'.
Qed.

Lemma next_number_unique (T : gmap value string) (n n' : N) :
  next_number T n → next_number T n' → n = n'.
Proof.
  intros [[-> ->]|(m & Hm & ->)] [[HT ->]|(m' & Hm' & ->)]; [done| | |].
  - destruct Hm' as [(k & id & Hk & _) _]. by rewrite lookup_empty in Hk.
  - destruct Hm as [(k & id & Hk & _) _]. subst T. by rewrite lookup_empty in Hk.
  - by rewrite (highest_suffix_unique T m m').
Qed.

Lemma next_number_initial_next_id (T : gmap value string) (n : N) :
  next_number T n → initial_next_id T = Ok n.
Proof.
  intros Hn.
  destruct (well_formed_initial_next_id T) as [n' Hn'];
    [by eapply next_number_well_formed|].
  rewrite Hn'. f_equal. eapply next_number_unique; [|done].
  by apply initial_next_id_next_number.
Qed.

(** Every suffix in the table lies below the next number. *)
Lemma next_number_bound (T : gmap value string) (n : N) (k : value) (id : string) :
  next_number T n → T !! k = Some id → ∃ m, id_number id = Ok m ∧ (m < n)%N.
Proof.
  intros [[-> _]|(m & [_ Hall] & ->)] Hk.
  - by rewrite lookup_empty in Hk.
  - destruct (Hall k id Hk) as (m' & Hm' & Hle). exists m'. split; [done|lia].
Qed.

Lemma next_number_fresh (T : gmap value string) (n : N) (k : value) (id : string) :
  next_number T n → T !! k = Some id → id ≠ format_id n.
Proof.
  intros Hn Hk ->. destruct (next_number_bound T n k _ Hn Hk) as (m & Hm & Hlt).
  rewrite id_number_format_id in Hm. simplify_eq. lia.
Qed.

Lemma next_number_insert (T : gmap value string) (n : N) (sender : value) :
  next_number T n → next_number (<[sender := format_id n]> T) (n + 1).
Proof.
  intros Hn. right. exists n. split; [|done]. split.
  - exists sender, (format_id n). split; [by rewrite lookup_insert_eq|].
    apply id_number_format_id.
  - apply map_Forall_insert_2.
    + exists n. split; [apply id_number_format_id|lia].
    + intros k id Hk. destruct (next_number_bound T n k id Hn Hk) as (m & Hm & Hlt).
      exists m. split; [done|lia].
Qed.

Lemma distinct_identifiers_insert (T : gmap value string) (n : N) (sender : value) :
  next_number T n → T !! sender = None → distinct_identifiers T →
  distinct_identifiers (<[sender := format_id n]> T).
Proof.
  intros Hn Hs Hd k1 k2 id.
  rewrite !lookup_insert_Some.
  intros [[<- <-]|[Hne1 H1]] [[<- Heq]|[Hne2 H2]]; [done| | |by eapply Hd].
  - by destruct (next_number_fresh T n k2 _ Hn H2).
  - subst id. by destruct (next_number_fresh T n k1 _ Hn H1).
Qed.

(** ** Identifier assignment *)

Lemma attached_weaken (field : string) (T T' : gmap value string)
    (entry out : gmap string value) :
  T ⊆ T' → attached field T entry out → attached field T' entry out.
Proof.
  intros Hsub (s & id & He & Hid & ->). exists s, id.
  split_and!; [done| |done]. by eapply lookup_weaken.
Qed.

Lemma assign_entry_skip (category : string) (st : assign_state)
    (entry : gmap string value) :
  sender_field category = None →
  assign_entry category st entry
  = Ok (AssignState (as_identifiers st) (as_next_id st) (as_done st ++ [entry])).
Proof. unfold assign_entry. by intros ->. Qed.

Lemma assign_entry_missing (category field : string) (st : assign_state)
    (entry : gmap string value) :
  sender_field category = Some field → entry !! field = None →
  assign_entry category st entry = Raise (KeyError (VStr field)).
Proof. unfold assign_entry, getitem. by intros -> ->. Qed.

Lemma assign_entry_known (category field : string) (st : assign_state)
    (entry : gmap string value) (sender : value) (id : string) :
  sender_field category = Some field → entry !! field = Some sender →
  as_identifiers st !! sender = Some id →
  assign_entry category st entry
  = Ok (AssignState (as_identifiers st) (as_next_id st)
          (as_done st ++ [with_identifier id entry])).
Proof.
  unfold assign_entry, getitem. intros -> -> Hid. simpl.
  rewrite bool_decide_eq_false_2 by congruence. by rewrite Hid.
Qed.

Lemma assign_entry_fresh (category field : string) (st : assign_state)
    (entry : gmap string value) (sender : value) :
  sender_field category = Some field → entry !! field = Some sender →
  as_identifiers st !! sender = None →
  assign_entry category st entry
  = Ok (AssignState (<[sender := format_id (as_next_id st)]> (as_identifiers st))
          (as_next_id st + 1)
          (as_done st ++ [with_identifier (format_id (as_next_id st)) entry])).
Proof.
  unfold assign_entry, getitem. intros -> -> Hid. simpl.
  rewrite bool_decide_eq_true_2 by done. by rewrite lookup_insert_eq.
Qed.

(** What one iteration does to a state whose counter is the next number of
    its table. *)
Lemma assign_entry_step (category field : string) (st st' : assign_state)
    (entry : gmap string value) :
  sender_field category = Some field →
  next_number (as_identifiers st) (as_next_id st) →
  assign_entry category st entry = Ok st' →
  as_identifiers st ⊆ as_identifiers st' ∧
  next_number (as_identifiers st') (as_next_id st') ∧
  (as_next_id st ≤ as_next_id st')%N ∧
  (distinct_identifiers (as_identifiers st) → distinct_identifiers (as_identifiers st')) ∧
  ∃ out, as_done st' = as_done st ++ [out] ∧
         attached field (as_identifiers st') entry out.
Proof.
  intros Hf Hn Hrun.
  destruct (entry !! field) as [sender|] eqn:Hs;
    [|by rewrite (assign_entry_missing _ _ _ _ Hf Hs) in Hrun].
  destruct (as_identifiers st !! sender) as [id|] eqn:Hid.
  - rewrite (assign_entry_known _ _ _ _ _ _ Hf Hs Hid) in Hrun.
    injection Hrun as <-. simpl. split_and!; [done|done|lia|done|].
    eexists. split; [done|]. by exists sender, id.
  - rewrite (assign_entry_fresh _ _ _ _ _ Hf Hs Hid) in Hrun.
    injection Hrun as <-. simpl. split_and!.
    + by apply insert_subseteq.
    + by apply next_number_insert.
    + lia.
    + by apply distinct_identifiers_insert.
    + eexists. split; [done|]. exists sender, (format_id (as_next_id st)).
      by rewrite lookup_insert_eq.
Qed.

Lemma assign_loop_invariants (category field : string)
    (data : list (gmap string value)) (st st' : assign_state) :
  sender_field category = Some field →
  next_number (as_identifiers st) (as_next_id st) →
  for_each (assign_entry category) st data = Ok st' →
  as_identifiers st ⊆ as_identifiers st' ∧
  next_number (as_identifiers st') (as_next_id st') ∧
  (as_next_id st ≤ as_next_id st')%N ∧
  (distinct_identifiers (as_identifiers st) → distinct_identifiers (as_identifiers st')) ∧
  ∃ out, as_done st' = as_done st ++ out ∧
         Forall2 (attached field (as_identifiers st')) data out.
Proof.
  intros Hf. revert st. induction data as [|entry data IH]; intros st Hn Hrun; simpl in Hrun.
  - injection Hrun as <-. split_and!; [done|done|lia|done|].
    exists []. by rewrite app_nil_r.
  - destruct (assign_entry category st entry) as [st1|e] eqn:Hstep; simpl in Hrun; [|done].
    destruct (assign_entry_step _ _ _ _ _ Hf Hn Hstep)
      as (Hsub1 & Hn1 & Hle1 & Hd1 & o & Hdone1 & Hatt1).
    destruct (IH st1 Hn1 Hrun) as (Hsub & Hn' & Hle & Hd & out & Hdone & Hatt).
    split_and!; [by etrans|done|lia|by auto|].
    exists (o :: out). split.
    + by rewrite Hdone, Hdone1, <-app_assoc.
    + constructor; [by eapply attached_weaken|done].
Qed.

Lemma assign_loop_total (category field : string)
    (data : list (gmap string value)) (st : assign_state) :
  sender_field category = Some field →
  next_number (as_identifiers st) (as_next_id st) →
  Forall (λ entry, is_Some (entry !! field)) data →
  is_Ok (for_each (assign_entry category) st data).
Proof.
  intros Hf Hn Hall. revert st Hn.
  induction Hall as [|entry data [sender Hs] _ IH]; intros st Hn; simpl; [by eexists|].
  assert (is_Ok (assign_entry category st entry)) as [st1 Hstep].
  { destruct (as_identifiers st !! sender) as [id|] eqn:Hid.
    - rewrite (assign_entry_known _ _ _ _ _ _ Hf Hs Hid). by eexists.
    - rewrite (assign_entry_fresh _ _ _ _ _ Hf Hs Hid). by eexists. }
  rewrite Hstep. simpl. apply IH.
  by destruct (assign_entry_step _ _ _ _ _ Hf Hn Hstep) as (_ & ? & _).
Qed.

(** The method in terms of its loop: the given table, the counter read off
    the table, and the loop started with no entry visited. *)
Lemma assign_unique_identifiers_Ok (data : list (gmap string value))
    (category : string) (existing : option (gmap value string))
    (out : list (gmap string value)) (T' : gmap value string) :
  assign_unique_identifiers data category existing = Ok (out, T') ↔
  ∃ n st', initial_next_id (default ∅ existing) = Ok n ∧
    for_each (assign_entry category) (AssignState (default ∅ existing) n []) data = Ok st' ∧
    as_done st' = out ∧ as_identifiers st' = T'.
Proof.
  unfold assign_unique_identifiers.
  destruct (initial_next_id (default ∅ existing)) as [n|e]; simpl.
  - destruct (for_each _ _ data) as [st'|e] eqn:Hrun; simpl.
    + split.
      * intros [= <- <-]. by exists n, st'.
      * intros (n' & st'' & [= <-] & Hrun' & <- & <-).
        rewrite Hrun in Hrun'. by injection Hrun' as <-.
    + split; [done|]. intros (n' & st'' & [= <-] & Hrun' & _).
      by rewrite Hrun in Hrun'.
  - split; [done|]. by intros (? & ? & ? & _).
Qed.

Lemma assign_loop_skip (category : string) (data : list (gmap string value))
    (st : assign_state) :
  sender_field category = None →
  for_each (assign_entry category) st data
  = Ok (AssignState (as_identifiers st) (as_next_id st) (as_done st ++ data)).
Proof.
  intros Hf. revert st. induction data as [|entry data IH]; intros st; simpl.
  - rewrite app_nil_r. by destruct st.
  - rewrite (assign_entry_skip _ _ _ Hf). simpl. rewrite IH. simpl.
    by rewrite <-app_assoc.
Qed.

(** C9: for a category without identity field (Keylog and Installed Apps;
    the code treats every category other than Messenger, SMS, Calls and
    Contacts alike) the method returns the records as they are, none with an
    identifier attached, and the table as it is (the empty table when the
    argument is [None]), provided the identifiers of the table have the
    numeric suffix that line 176 reads before the loop starts. *)
Theorem assign_unique_identifiers_pass_through
    (data : list (gmap string value)) (category : string)
    (existing : option (gmap value string)) :
  category = "Keylog" ∨ category = "Installed Apps" →
  well_formed (default ∅ existing) →
  sender_field category = None ∧
  assign_unique_identifiers data category existing = Ok (data, default ∅ existing).
Proof.
  intros Hcat Hwf.
  assert (sender_field category = None) as Hf by (by destruct Hcat as [->| ->]).
  split; [done|].
  destruct (well_formed_initial_next_id _ Hwf) as [n Hn].
  apply assign_unique_identifiers_Ok.
  eexists n, _. split; [done|]. split; [by apply assign_loop_skip|]. done.
Qed.

Lemma assign_unique_identifiers_pass_through_witness :
  let r : gmap string value :=
    {[ "Application" := VStr "Notes"; "Time" := VStr "t1"; "Text" := VStr "abc" ]} in
  let T : gmap value string := {[ VStr "Alice" := "ID_007" ]} in
  assign_unique_identifiers [r; r] "Keylog" (Some T) = Ok ([r; r], T).
Proof.
  intros r T.
  refine (proj2 (assign_unique_identifiers_pass_through [r; r] "Keylog" (Some T) _ _)).
  - by left.
  - intros k id Hk. simpl in Hk. subst T.
    apply lookup_singleton_Some in Hk as [_ <-]. exists 7%N. reflexivity.
Defined.

(** The state of the loop after a prefix of the batch is what the method
    returns for that prefix, and the counter is the next number of that
    table. *)
Lemma assign_unique_identifiers_app (category field : string)
    (data1 data2 : list (gmap string value)) (existing : option (gmap value string))
    (out : list (gmap string value)) (T' : gmap value string) :
  sender_field category = Some field →
  assign_unique_identifiers (data1 ++ data2) category existing = Ok (out, T') →
  ∃ out1 T1 n1 st',
    assign_unique_identifiers data1 category existing = Ok (out1, T1) ∧
    next_number T1 n1 ∧ length out1 = length data1 ∧
    for_each (assign_entry category) (AssignState T1 n1 out1) data2 = Ok st' ∧
    as_done st' = out ∧ as_identifiers st' = T'.
Proof.
  intros Hf (n & st' & Hn & Hrun & Hout & HT)%assign_unique_identifiers_Ok.
  rewrite for_each_app in Hrun.
  destruct (for_each (assign_entry category) _ data1) as [[T1 n1 out1]|e] eqn:Hrun1;
    simpl in Hrun; [|done].
  apply initial_next_id_next_number in Hn as Hnext.
  destruct (assign_loop_invariants _ _ _ (AssignState _ _ _) _ Hf Hnext Hrun1)
    as (_ & Hn1 & _ & _ & out1' & Hdone & Hatt).
  simpl in *. subst out1'.
  exists out1, T1, n1, st'. split_and!; [|done| |done..].
  - apply assign_unique_identifiers_Ok. by eexists n, _.
  - symmetry. by eapply Forall2_length.
Qed.

(** The identifier of an identity value that is not in the table when its
    record is reached. *)
Lemma assign_unique_identifiers_mint (category field : string)
    (pre post : list (gmap string value)) (entry : gmap string value)
    (existing : option (gmap value string)) (sender : value)
    (out : list (gmap string value)) (T' : gmap value string) :
  sender_field category = Some field →
  assign_unique_identifiers (pre ++ entry :: post) category existing = Ok (out, T') →
  entry !! field = Some sender →
  ∃ out1 T1 n,
    assign_unique_identifiers pre category existing = Ok (out1, T1) ∧
    next_number T1 n ∧
    (T1 !! sender = None →
       T' !! sender = Some (format_id n) ∧
       out !! length pre = Some (with_identifier (format_id n) entry)).
Proof.
  intros Hf Hrun Hs.
  destruct (assign_unique_identifiers_app _ _ _ _ _ _ _ Hf Hrun)
    as (out1 & T1 & n & st' & Hpre & Hn & Hlen & Hloop & <- & <-).
  exists out1, T1, n. split_and!; [done..|]. intros Hfresh.
  simpl in Hloop.
  rewrite (assign_entry_fresh _ _ (AssignState _ _ _) _ _ Hf Hs Hfresh) in Hloop.
  simpl in Hloop.
  destruct (assign_loop_invariants _ _ _ (AssignState _ _ _) _ Hf
              (next_number_insert _ _ sender Hn) Hloop)
    as (Hsub & _ & _ & _ & out2 & Hdone & _).
  simpl in *. split.
  - eapply lookup_weaken; [|done]. by rewrite lookup_insert_eq.
  - rewrite Hdone, <-Hlen, <-app_assoc. simpl. by apply list_lookup_middle.
Qed.

(** Between two records that both receive a new identifier the next number
    has grown. *)
Lemma assign_unique_identifiers_increasing (category field : string)
    (pre mid : list (gmap string value)) (entry : gmap string value)
    (existing : option (gmap value string)) (sender : value)
    (out1 out2 : list (gmap string value)) (T1 T2 : gmap value string) (n1 n2 : N) :
  sender_field category = Some field →
  assign_unique_identifiers pre category existing = Ok (out1, T1) →
  assign_unique_identifiers (pre ++ entry :: mid) category existing = Ok (out2, T2) →
  entry !! field = Some sender → T1 !! sender = None →
  next_number T1 n1 → next_number T2 n2 → (n1 < n2)%N.
Proof.
  intros Hf Hpre Hrun Hs Hfresh Hn1 Hn2.
  destruct (assign_unique_identifiers_app _ _ _ _ _ _ _ Hf Hrun)
    as (o & T & n & st' & Hpre' & Hn & _ & Hloop & _ & <-).
  rewrite Hpre in Hpre'. injection Hpre' as <- <-.
  rewrite (next_number_unique _ _ _ Hn Hn1) in *.
  simpl in Hloop.
  rewrite (assign_entry_fresh _ _ (AssignState _ _ _) _ _ Hf Hs Hfresh) in Hloop.
  simpl in Hloop.
  destruct (assign_loop_invariants _ _ _ (AssignState _ _ _) _ Hf
              (next_number_insert _ _ sender Hn1) Hloop)
    as (_ & Hn' & Hle & _).
  simpl in *. rewrite (next_number_unique _ _ _ Hn2 Hn'). lia.
Qed.

Lemma reachable_table_invariants (T : gmap value string) :
  reachable_table T → well_formed T ∧ distinct_identifiers T.
Proof.
  induction 1 as [|T T' data out category _ [Hwf Hd] Hrun].
  - split; [by apply map_Forall_empty|]. intros k1 k2 id Hk. by rewrite lookup_empty in Hk.
  - apply assign_unique_identifiers_Ok in Hrun as (n & st' & Hn & Hrun & _ & <-).
    simpl in *. apply initial_next_id_next_number in Hn.
    destruct (sender_field category) as [field|] eqn:Hf.
    + destruct (assign_loop_invariants _ _ _ (AssignState _ _ _) _ Hf Hn Hrun)
        as (_ & Hn' & _ & Hd' & _).
      split; [by eapply next_number_well_formed|by apply Hd'].
    + rewrite (assign_loop_skip _ _ _ Hf) in Hrun. by injection Hrun as <-.
Qed.

Lemma sender_field_cases (category field : string) :
  sender_field category = Some field →
  (category = "Messenger" ∧ field = "Sender") ∨
  (category = "SMS" ∧ field = "From/To") ∨
  (category = "Calls" ∧ field = "From/To") ∨
  (category = "Contacts" ∧ field = "Name").
Proof.
  unfold sender_field.
  destruct (bool_decide (category ∈ ["Messenger"; "SMS"; "Calls"])) eqn:Hin.
  - apply bool_decide_eq_true in Hin. revert Hin.
    rewrite !elem_of_cons, elem_of_nil. intros [->|[->|[->|[]]]]; intros [= <-]; tauto.
  - destruct (bool_decide (category = "Contacts")) eqn:Hc; [|done].
    apply bool_decide_eq_true in Hc. subst. intros [= <-]. tauto.
Qed.

(** The code gives an identity field to the categories of [identity_fields],
    each its own, and to no other category. *)
Lemma identity_fields_sender_field (category field : string) :
  (category, field) ∈ identity_fields ↔ sender_field category = Some field.
Proof.
  split.
  - unfold identity_fields. rewrite !elem_of_cons, elem_of_nil.
    intros [H|[H|[H|[H|[]]]]]; injection H as -> ->; reflexivity.
  - unfold identity_fields. rewrite !elem_of_cons.
    intros [[-> ->]|[[-> ->]|[[-> ->]|[-> ->]]]]%sender_field_cases; tauto.
Qed.

Lemma assign_unique_identifiers_total (data : list (gmap string value))
    (category : string) (existing : option (gmap value string)) :
  well_formed (default ∅ existing) →
  (∀ field, sender_field category = Some field →
     Forall (λ entry, is_Some (entry !! field)) data) →
  is_Ok (assign_unique_identifiers data category existing).
Proof.
  intros Hwf Hall.
  destruct (well_formed_initial_next_id _ Hwf) as [n Hn].
  apply initial_next_id_next_number in Hn as Hnext.
  destruct (sender_field category) as [field|] eqn:Hf.
  - destruct (assign_loop_total category field data
                (AssignState (default ∅ existing) n []) Hf Hnext (Hall field eq_refl))
      as [st' Hrun].
    exists (as_done st', as_identifiers st').
    apply assign_unique_identifiers_Ok. by exists n, st'.
  - exists (data, default ∅ existing).
    apply assign_unique_identifiers_Ok. eexists n, _.
    split; [done|]. split; [by apply assign_loop_skip|done].
Qed.

(** C3: for each of the four categories that have an identity field
    (Messenger, SMS, Calls and Contacts), on a batch whose records all carry
    that field and a table whose identifiers line 176 can read, the method
    returns; every record comes back with the identifier the returned table
    holds for its identity value; every entry of the given table is in the
    returned table unchanged, so a record whose identity value was already
    mapped gets exactly that identifier; when no identifier of the given
    table is shared by two identity values, none of the returned table is
    (and the tables the program builds from the empty table are all of that
    kind). *)
Theorem assign_unique_identifiers_stable
    (data : list (gmap string value)) (category field : string)
    (existing : option (gmap value string)) :
  (category, field) ∈ identity_fields →
  well_formed (default ∅ existing) →
  Forall (λ entry, is_Some (entry !! field)) data →
  ∃ out T',
    assign_unique_identifiers data category existing = Ok (out, T') ∧
    Forall2 (attached field T') data out ∧
    default ∅ existing ⊆ T' ∧
    (∀ (i : nat) entry sender id,
       data !! i = Some entry → entry !! field = Some sender →
       default ∅ existing !! sender = Some id →
       T' !! sender = Some id ∧ out !! i = Some (with_identifier id entry)) ∧
    well_formed T' ∧
    (distinct_identifiers (default ∅ existing) → distinct_identifiers T') ∧
    (reachable_table (default ∅ existing) →
       reachable_table T' ∧ distinct_identifiers T').
Proof.
  intros Hf%identity_fields_sender_field Hwf Hall.
  destruct (well_formed_initial_next_id _ Hwf) as [n Hn].
  apply initial_next_id_next_number in Hn as Hnext.
  destruct (assign_loop_total category field data (AssignState (default ∅ existing) n [])
              Hf Hnext Hall) as [st' Hrun].
  destruct (assign_loop_invariants _ _ _ (AssignState _ _ _) _ Hf Hnext Hrun)
    as (Hsub & Hn' & _ & Hd & out & Hdone & Hatt).
  simpl in *. exists out, (as_identifiers st').
  assert (assign_unique_identifiers data category existing = Ok (out, as_identifiers st'))
    as Hres by (apply assign_unique_identifiers_Ok; by exists n, st').
  split_and!; [done..| | |done|].
  - intros i entry sender id Hi Hs Hid.
    assert (as_identifiers st' !! sender = Some id) as Hid' by by eapply lookup_weaken.
    split; [done|].
    destruct (Forall2_lookup_l _ _ _ _ _ Hatt Hi) as (o & Ho & s' & id' & Hs' & Hid'' & ->).
    rewrite Ho. by simplify_eq.
  - by eapply next_number_well_formed.
  - intros Hreach.
    assert (reachable_table (as_identifiers st')) as Hreach'.
    { eapply (reachable_assign (default ∅ existing)); [done|].
      unfold assign_unique_identifiers in *. exact Hres. }
    split; [done|]. by apply reachable_table_invariants.
Qed.

Lemma assign_unique_identifiers_stable_witness :
  let alice (field : string) : gmap string value :=
    {[ field := VStr "Alice"; "Time" := VStr "t1" ]} in
  let bob (field : string) : gmap string value :=
    {[ field := VStr "Bob"; "Time" := VStr "t2" ]} in
  let T : gmap value string := {[ VStr "Alice" := "ID_007" ]} in
  Forall (λ cf : string * string,
            ∃ out T',
              assign_unique_identifiers [bob cf.2; alice cf.2] cf.1 (Some T) = Ok (out, T') ∧
              T ⊆ T' ∧ out !! 1%nat = Some (with_identifier "ID_007" (alice cf.2)))
    identity_fields.
Proof.
  intros alice bob T. apply Forall_forall. intros [category field] Hcf.
  destruct (assign_unique_identifiers_stable [bob field; alice field] category field (Some T))
    as (out & T' & Hrun & _ & Hsub & Hknown & _).
  - exact Hcf.
  - intros k id Hk. simpl in Hk. subst T.
    apply lookup_singleton_Some in Hk as [_ <-]. exists 7%N. reflexivity.
  - apply Forall_cons. split; [exists (VStr "Bob"); apply lookup_insert_eq|].
    apply Forall_cons. split; [exists (VStr "Alice"); apply lookup_insert_eq|].
    apply Forall_nil_2.
  - exists out, T'. split_and!; [exact Hrun|exact Hsub|].
    apply (Hknown 1%nat (alice field) (VStr "Alice") "ID_007");
      [reflexivity|apply lookup_insert_eq|apply lookup_singleton_eq].
Defined.

(** C4: for each of the four categories that have an identity field
    (Messenger, SMS, Calls and Contacts), on a batch whose records all carry
    that field, the method returns, and for every record of the batch whose
    identity value is not in the table when the loop reaches it (the table
    being what the method returns for the records before it) the identifier
    minted is ["ID_"] followed by the next number of that table in the format
    [03d], where the next number is one more than the highest numeric suffix
    in that table, 1 for the empty table, and is what line 176 computes for
    it; no identifier of that table equals the minted one.  Of two records
    that both receive a new identifier the later one receives the greater
    number.  The format pads to three characters below 1000, is wider from
    1000 on, and the number can always be read back from the identifier. *)
Theorem assign_unique_identifiers_minting
    (data : list (gmap string value)) (category field : string)
    (existing : option (gmap value string)) :
  (category, field) ∈ identity_fields →
  well_formed (default ∅ existing) →
  Forall (λ entry, is_Some (entry !! field)) data →
  ∃ out T',
    assign_unique_identifiers data category existing = Ok (out, T') ∧
    (∀ pre entry post sender,
       data = pre ++ entry :: post → entry !! field = Some sender →
       ∃ out1 T1 n,
         assign_unique_identifiers pre category existing = Ok (out1, T1) ∧
         next_number T1 n ∧ initial_next_id T1 = Ok n ∧
         (T1 !! sender = None →
            T' !! sender = Some (format_id n) ∧
            out !! length pre = Some (with_identifier (format_id n) entry) ∧
            ∀ k id, T1 !! k = Some id → id ≠ format_id n)) ∧
    (∀ pre entry1 mid entry2 post sender1 sender2 out1 T1 out2 T2,
       data = pre ++ entry1 :: mid ++ entry2 :: post →
       entry1 !! field = Some sender1 → entry2 !! field = Some sender2 →
       assign_unique_identifiers pre category existing = Ok (out1, T1) →
       assign_unique_identifiers (pre ++ entry1 :: mid) category existing = Ok (out2, T2) →
       T1 !! sender1 = None → T2 !! sender2 = None →
       ∃ n1 n2, T' !! sender1 = Some (format_id n1) ∧
                T' !! sender2 = Some (format_id n2) ∧ (n1 < n2)%N) ∧
    next_number ∅ 1 ∧
    (∀ n, id_number (format_id n) = Ok n) ∧
    (∀ n, (n < 1000)%N → String.length (format_03d n) = 3%nat) ∧
    (∀ n, (1000 ≤ n)%N → (3 < String.length (format_03d n))%nat) ∧
    format_id 1 = "ID_001" ∧ format_id 999 = "ID_999" ∧ format_id 1000 = "ID_1000".
Proof.
  intros Hf%identity_fields_sender_field Hwf Hall.
  destruct (assign_unique_identifiers_total data category existing Hwf) as [[out T'] Hrun].
  { intros field' Hf'. rewrite Hf in Hf'. by injection Hf' as <-. }
  exists out, T'. split_and!; [done| | |by left|..].
  - intros pre entry post sender -> Hs.
    destruct (assign_unique_identifiers_mint _ _ _ _ _ _ _ _ _ Hf Hrun Hs)
      as (out1 & T1 & n & Hpre & Hn & Hmint).
    exists out1, T1, n. split_and!; [done|done|by apply next_number_initial_next_id|].
    intros Hfresh. destruct (Hmint Hfresh). split_and!; [done..|].
    intros k id Hk. by eapply next_number_fresh.
  - intros pre entry1 mid entry2 post sender1 sender2 out1 T1 out2 T2
      -> Hs1 Hs2 Hpre1 Hpre2 Hfresh1 Hfresh2.
    destruct (assign_unique_identifiers_mint _ _ _ _ _ _ _ _ _ Hf Hrun Hs1)
      as (o1 & T1' & n1 & Hpre1' & Hn1 & Hmint1).
    rewrite Hpre1 in Hpre1'. injection Hpre1' as <- <-.
    assert (pre ++ entry1 :: mid ++ entry2 :: post
            = (pre ++ entry1 :: mid) ++ entry2 :: post) as Heq by by rewrite <-app_assoc.
    rewrite Heq in Hrun.
    destruct (assign_unique_identifiers_mint _ _ _ _ _ _ _ _ _ Hf Hrun Hs2)
      as (o2 & T2' & n2 & Hpre2' & Hn2 & Hmint2).
    rewrite Hpre2 in Hpre2'. injection Hpre2' as <- <-.
    exists n1, n2. split_and!; [by apply Hmint1|by apply Hmint2|].
    by eapply (assign_unique_identifiers_increasing category field pre mid entry1).
  - apply id_number_format_id.
  - apply length_format_03d_narrow.
  - apply length_format_03d_wide.
  - reflexivity.
  - reflexivity.
  - reflexivity.
Qed.

Lemma assign_unique_identifiers_minting_witness :
  let alice (field : string) : gmap string value :=
    {[ field := VStr "Alice"; "Time" := VStr "t1" ]} in
  let bob (field : string) : gmap string value :=
    {[ field := VStr "Bob"; "Time" := VStr "t2" ]} in
  let T : gmap value string := {[ VStr "Carol" := "ID_999" ]} in
  Forall (λ cf : string * string,
            ∃ out T',
              assign_unique_identifiers [alice cf.2; bob cf.2] cf.1 (Some T) = Ok (out, T') ∧
              T' !! VStr "Alice" = Some "ID_1000" ∧ out !! 0%nat
              = Some (with_identifier "ID_1000" (alice cf.2)))
    identity_fields.
Proof.
  intros alice bob T. apply Forall_forall. intros [category field] Hcf.
  destruct (assign_unique_identifiers_minting [alice field; bob field] category field (Some T))
    as (out & T' & Hrun & Hmint & _).
  - exact Hcf.
  - intros k id Hk. simpl in Hk. subst T.
    apply lookup_singleton_Some in Hk as [_ <-]. exists 999%N. reflexivity.
  - apply Forall_cons. split; [exists (VStr "Alice"); apply lookup_insert_eq|].
    apply Forall_cons. split; [exists (VStr "Bob"); apply lookup_insert_eq|].
    apply Forall_nil_2.
  - exists out, T'. split; [exact Hrun|].
    destruct (Hmint [] (alice field) [bob field] (VStr "Alice") eq_refl
                (lookup_insert_eq _ _ _))
      as (out1 & T1 & n & Hpre & _ & Hn & Hfresh).
    assert (assign_unique_identifiers [] category (Some T) = Ok ([], T)) as Hnil
      by (unfold assign_unique_identifiers; reflexivity).
    rewrite Hnil in Hpre. injection Hpre as <- <-.
    assert (n = 1000%N) as -> by (assert (Ok n = Ok 1000%N) as [= ->] by (by rewrite <-Hn); done).
    destruct Hfresh as (HT' & Hout & _); [reflexivity|].
    split; [exact HT'|exact Hout].
Defined.

(** ** Duplicate filter *)

(** C2: the method on a batch of two records with the same dedup-key tuple,
    of which the claim keeps the first and drops the second.  The method
    returns [None] for this batch, as it does for every batch and every
    category: it hands back no records at all, filtered or not. *)
Theorem prevent_duplicate_entries_returns_None :
  let alice : gmap string value :=
    {[ "Time" := VStr "t1"; "Sender" := VStr "Alice"; "Text" := VStr "hi" ]} in
  prevent_duplicate_entries [alice; alice] "Messenger" = None ∧
  ∀ processed_data category, prevent_duplicate_entries processed_data category = None.
Proof. intros alice. split; [reflexivity|]. intros processed_data category. reflexivity. Qed.

(** ** Merging into the persisted document *)

Lemma merge_category_list (existing_data : gmap string json) (category : string)
    (entries : list (gmap string value)) :
  (∀ d, existing_data !! category ≠ Some (JDict d)) →
  merge_category existing_data (category, entries)
  = Ok (<[category := JList (stored_records existing_data category ++ entries)]>
          existing_data).
Proof.
  intros Hlist. unfold merge_category, stored_records. simpl.
  destruct (existing_data !! category) as [[l|d]|] eqn:Hc.
  - rewrite bool_decide_eq_false_2 by done. by rewrite Hc.
  - by destruct (Hlist d).
  - rewrite bool_decide_eq_true_2 by done. rewrite lookup_insert_eq.
    by rewrite insert_insert_eq.
Qed.

Lemma merge_category_dict (existing_data : gmap string json) (category : string)
    (entries : list (gmap string value)) (d : gmap value string) :
  existing_data !! category = Some (JDict d) →
  merge_category existing_data (category, entries) = Raise AttributeError.
Proof.
  intros Hc. unfold merge_category. simpl.
  rewrite bool_decide_eq_false_2 by congruence. by rewrite Hc.
Qed.

Lemma merge_category_Ok (existing_data merged : gmap string json) (category : string)
    (entries : list (gmap string value)) :
  merge_category existing_data (category, entries) = Ok merged →
  (∀ d, existing_data !! category ≠ Some (JDict d)) ∧
  merged = <[category := JList (stored_records existing_data category ++ entries)]>
             existing_data.
Proof.
  intros Hm.
  assert (∀ d, existing_data !! category ≠ Some (JDict d)) as Hlist.
  { intros d Hd. by rewrite (merge_category_dict _ _ _ _ Hd) in Hm. }
  split; [done|]. rewrite merge_category_list in Hm by done. by injection Hm.
Qed.

(** The loop over the items of a dictionary (distinct keys). *)
Lemma merge_loop_Ok (items : list (string * list (gmap string value)))
    (existing_data merged : gmap string json) :
  NoDup items.*1 →
  for_each merge_category existing_data items = Ok merged →
  (∀ category entries, (category, entries) ∈ items →
     (∀ d, existing_data !! category ≠ Some (JDict d)) ∧
     merged !! category
     = Some (JList (stored_records existing_data category ++ entries))) ∧
  (∀ category, category ∉ items.*1 → merged !! category = existing_data !! category).
Proof.
  revert existing_data.
  induction items as [|[c es] items IH]; intros existing_data Hnd Hrun; simpl in *.
  - injection Hrun as <-. split; [|done]. intros c es Hin. by apply elem_of_nil in Hin.
  - apply NoDup_cons in Hnd as [Hc Hnd].
    destruct (merge_category existing_data (c, es)) as [m1|e] eqn:Hm1; simpl in Hrun; [|done].
    apply merge_category_Ok in Hm1 as [Hlist ->].
    destruct (IH _ Hnd Hrun) as [Hin Hout]. split.
    + intros category entries [[= -> ->]|Hmem]%elem_of_cons.
      * split; [done|]. rewrite Hout by done. by rewrite lookup_insert_eq.
      * assert (category ≠ c) as Hne.
        { intros ->. apply Hc, list_elem_of_fmap. by exists (c, entries). }
        destruct (Hin category entries Hmem) as [Hl Hm].
        rewrite lookup_insert_ne in Hl by done. split; [done|].
        rewrite Hm. unfold stored_records. by rewrite lookup_insert_ne.
    + intros category [Hne Hnin]%not_elem_of_cons.
      rewrite Hout by done. by rewrite lookup_insert_ne.
Qed.

Lemma merge_loop_total (items : list (string * list (gmap string value)))
    (existing_data : gmap string json) :
  NoDup items.*1 →
  (∀ category entries, (category, entries) ∈ items →
     ∀ d, existing_data !! category ≠ Some (JDict d)) →
  is_Ok (for_each merge_category existing_data items).
Proof.
  revert existing_data.
  induction items as [|[c es] items IH]; intros existing_data Hnd Hlist; simpl.
  - by eexists.
  - apply NoDup_cons in Hnd as [Hc Hnd].
    rewrite merge_category_list by (apply (Hlist c es); by left). simpl.
    apply IH; [done|]. intros category entries Hmem d.
    assert (category ≠ c) as Hne.
    { intros ->. apply Hc, list_elem_of_fmap. by exists (c, entries). }
    rewrite lookup_insert_ne by done. apply (Hlist category entries). by right.
Qed.

(** The merge loop appends, and touches nothing else. *)
Lemma merge_spec (final_data : gmap string (list (gmap string value)))
    (existing_data : gmap string json) :
  (∀ merged, merge final_data existing_data = Ok merged →
     (∀ category entries, final_data !! category = Some entries →
        (existing_data !! category = None ∨
         existing_data !! category
         = Some (JList (stored_records existing_data category))) ∧
        merged !! category
        = Some (JList (stored_records existing_data category ++ entries))) ∧
     (∀ category, final_data !! category = None →
        merged !! category = existing_data !! category)) ∧
  ((∀ category d, existing_data !! category = Some (JDict d) →
      final_data !! category = None) →
   is_Ok (merge final_data existing_data)).
Proof.
  unfold merge. split.
  - intros merged Hrun.
    destruct (merge_loop_Ok _ _ _ (NoDup_fst_map_to_list final_data) Hrun) as [Hin Hout].
    split.
    + intros category entries Hc%elem_of_map_to_list.
      destruct (Hin category entries Hc) as [Hlist Hm]. split; [|done].
      unfold stored_records.
      destruct (existing_data !! category) as [[l|d]|]; [by right|by destruct (Hlist d)|by left].
    + intros category Hc. apply Hout. intros [[c es] [-> Hmem]]%list_elem_of_fmap.
      apply elem_of_map_to_list in Hmem. simpl in Hc. congruence.
  - intros Hdict. apply merge_loop_total; [apply NoDup_fst_map_to_list|].
    intros category entries Hc%elem_of_map_to_list d Hd.
    specialize (Hdict category d Hd). congruence.
Qed.

(** ** The ingestion run *)

Section run_facts.

Variable parse_strftime : string → result string.
Variable detect_and_categorize :
  list (gmap string value) → result (gmap string (list (gmap string value))).
Variable prevent_duplicates :
  gmap string (list (gmap string value)) →
  result (gmap string (list (gmap string value))).

Local Abbreviation run_prepare :=
  (prepare parse_strftime detect_and_categorize prevent_duplicates).
Local Abbreviation run_try :=
  (try_block parse_strftime detect_and_categorize prevent_duplicates).
Local Abbreviation run :=
  (process_data parse_strftime detect_and_categorize prevent_duplicates).

(** The [try] block either fails and leaves the document alone, or saves
    the document that [prepare] has built. *)
Lemma try_block_cases (u : upload) (w : world) :
  (∃ e w', run_try u w = (w', Raise e) ∧ disk w' = disk w ∧
     (run_prepare u w = Raise e ∨
      (is_Ok (run_prepare u w) ∧ unique_identifiers w = None ∧
       e = NameError "unique_identifiers") ∨
      (∃ merged, run_prepare u w = Ok merged ∧ is_Some (unique_identifiers w) ∧
         stored_identifiers merged = Raise e) ∨
      (is_Ok (run_prepare u w) ∧ save_fault u = true ∧ e = OSError))) ∨
  (∃ merged ids stored,
     run_try u w = (World (Some merged) (Some (stored ∪ ids)), Ok ()) ∧
     run_prepare u w = Ok merged ∧ unique_identifiers w = Some ids ∧
     stored_identifiers merged = Ok stored ∧ save_fault u = false).
Proof.
  unfold try_block.
  destruct (run_prepare u w) as [merged|e] eqn:Hprep;
    [|left; exists e, w; split_and!; [done..|by left]].
  destruct (unique_identifiers w) as [ids|] eqn:Hids;
    [|left; eexists _, w; split_and!; [done..|]; right; left; split_and!; [by eexists|done..]].
  destruct (stored_identifiers merged) as [stored|e] eqn:Hst;
    [|left; exists e, w; split_and!; [done..|]; right; right; left; by exists merged].
  unfold save_json_data. destruct (save_fault u) eqn:Hsave.
  - left. eexists _, _. split_and!; [done..|]. right; right; right.
    split_and!; [by eexists|done..].
  - right. by exists merged, ids, stored.
Qed.

Lemma try_block_Ok (u : upload) (w w' : world) :
  run_try u w = (w', Ok ()) ↔
  ∃ merged ids stored,
    w' = World (Some merged) (Some (stored ∪ ids)) ∧
    run_prepare u w = Ok merged ∧ unique_identifiers w = Some ids ∧
    stored_identifiers merged = Ok stored ∧ save_fault u = false.
Proof.
  split.
  - intros Htry.
    destruct (try_block_cases u w)
      as [(e & w1 & Htry' & _)|(merged & ids & stored & Htry' & ?)];
      rewrite Htry in Htry'; [done|].
    injection Htry' as ->. by exists merged, ids, stored.
  - intros (merged & ids & stored & -> & Hp & Hi & Hs & Hf).
    unfold try_block. rewrite Hp, Hi, Hs. unfold save_json_data. by rewrite Hf.
Qed.

Lemma process_data_Saved (u : upload) (w w' : world) :
  run u w = (w', Saved) ↔
  falsy (file_path u) = false ∧ falsy (data_category u) = false ∧
  ∃ merged ids stored,
    w' = World (Some merged) (Some (stored ∪ ids)) ∧
    run_prepare u w = Ok merged ∧ unique_identifiers w = Some ids ∧
    stored_identifiers merged = Ok stored ∧ save_fault u = false.
Proof.
  rewrite <-try_block_Ok. unfold process_data.
  destruct (falsy (file_path u)); [split; [done|by intros [? _]]|].
  destruct (falsy (data_category u)); [split; [done|by intros (_ & ? & _)]|].
  destruct (run_try u w) as [w1 [[]|e]].
  - split; [by intros [= <-]|]. by intros (_ & _ & [= <-]).
  - split; [done|]. by intros (_ & _ & ?).
Qed.

Lemma process_data_not_Saved (u : upload) (w w' : world) (o : outcome) :
  run u w = (w', o) → o ≠ Saved → disk w' = disk w.
Proof.
  unfold process_data.
  destruct (falsy (file_path u)); [by intros [= <- <-]|].
  destruct (falsy (data_category u)); [by intros [= <- <-]|].
  destruct (try_block_cases u w)
    as [(e & w1 & -> & Hdisk & _)|(merged & ids & stored & -> & _)].
  - by intros [= <- <-].
  - by intros [= <- <-].
Qed.

(** A failure before the global name is touched ends the run with that
    exception and the world as it was. *)
Lemma process_data_prepare_fails (u : upload) (w : world) (e : exn) :
  falsy (file_path u) = false → falsy (data_category u) = false →
  run_prepare u w = Raise e → run u w = (w, Failed e).
Proof.
  intros Hfile Hcat Hp. unfold process_data, try_block.
  by rewrite Hfile, Hcat, Hp.
Qed.

Local Abbreviation run_final :=
  (final_data parse_strftime detect_and_categorize prevent_duplicates).

Lemma prepare_Ok (u : upload) (w : world) (merged : gmap string json) :
  run_prepare u w = Ok merged ↔
  load_fault u = false ∧
  ∃ final, run_final u = Ok final ∧ merge final (default ∅ (disk w)) = Ok merged.
Proof.
  unfold prepare, final_data, load_json_data.
  destruct (load_fault u); simpl; [split; [done|by intros [? _]]|].
  destruct (csv_rows u) as [rows|e]; simpl; [|split; [done|by intros (_ & ? & ? & _)]].
  destruct (mapM _ rows) as [rows'|e]; simpl; [|split; [done|by intros (_ & ? & ? & _)]].
  destruct (detect_and_categorize rows') as [c|e]; simpl;
    [|split; [done|by intros (_ & ? & ? & _)]].
  destruct (prevent_duplicates c) as [final|e]; simpl;
    [|split; [done|by intros (_ & ? & ? & _)]].
  split.
  - intros Hm. split; [done|]. by exists final.
  - by intros (_ & final' & [= <-] & Hm).
Qed.

Lemma prepare_final_fails (u : upload) (w : world) (e : exn) :
  load_fault u = false → run_final u = Raise e → run_prepare u w = Raise e.
Proof.
  unfold prepare, final_data, load_json_data. intros ->. simpl.
  destruct (csv_rows u) as [rows|e1]; simpl; [|congruence].
  destruct (mapM _ rows) as [rows'|e2]; simpl; [|congruence].
  destruct (detect_and_categorize rows') as [c|e3]; simpl; [|congruence].
  destruct (prevent_duplicates c) as [final|e4]; simpl; [done|congruence].
Qed.

(** C6: a run that does not end with the success dialog (an early return
    for a missing file or an undetected category, or any exception caught by
    the [except] branch, a failing save included) leaves the persisted
    document as it was; a run that ends with the success dialog has replaced
    it by the whole merged document; a save that fails never ends with the
    success dialog, and neither does a run without detected category. *)
Theorem process_data_atomic (u : upload) (w : world) :
  (∀ w' o, run u w = (w', o) → o ≠ Saved → disk w' = disk w) ∧
  (∀ w', run u w = (w', Saved) →
     ∃ final merged,
       run_final u = Ok final ∧ merge final (default ∅ (disk w)) = Ok merged ∧
       disk w' = Some merged) ∧
  (save_fault u = true → (run u w).2 ≠ Saved) ∧
  (falsy (data_category u) = true → (run u w).1 = w ∧ (run u w).2 ≠ Saved).
Proof.
  split_and!.
  - apply process_data_not_Saved.
  - intros w' (_ & _ & merged & ids & stored & -> & Hp & _)%process_data_Saved.
    apply prepare_Ok in Hp as (_ & final & Hfinal & Hm). by exists final, merged.
  - intros Hsave Hrun. destruct (run u w) as [w' o] eqn:Hr. simpl in Hrun. subst o.
    apply process_data_Saved in Hr as (_ & _ & ? & ? & ? & _ & _ & _ & _ & ?). congruence.
  - intros Hcat. unfold process_data. rewrite Hcat. by destruct (falsy (file_path u)).
Qed.


(** *** Timestamp normalisation *)

Lemma standardize_field_Ok (row row' : gmap string value) (field : string) :
  standardize_field parse_strftime row field = Ok row' →
  normalised_cell parse_strftime (row !! field) (row' !! field) ∧
  ∀ other, other ≠ field → row' !! other = row !! other.
Proof.
  unfold standardize_field, normalised_cell.
  destruct (row !! field) as [v|] eqn:Hv; [|intros [= <-]; by rewrite Hv].
  destruct v as [s| | |]; simpl; try done.
  destruct (parse_strftime s) as [t|e] eqn:Hs.
  - intros [= <-]. rewrite lookup_insert_eq. split; [|intros; by rewrite lookup_insert_ne].
    exists s. split; [done|]. left. by exists t.
  - destruct e; try done. intros [= <-]. rewrite lookup_insert_eq.
    split; [|intros; by rewrite lookup_insert_ne]. exists s. split; [done|]. by right.
Qed.

Lemma standardize_field_not_ValueError (row : gmap string value) (field : string) :
  standardize_field parse_strftime row field ≠ Raise ValueError.
Proof.
  unfold standardize_field. destruct (row !! field) as [v|]; [|done].
  destruct (parse_cell parse_strftime v) as [t|[]]; done.
Qed.

Lemma standardize_field_not_string (row : gmap string value) (field : string) (v : value) :
  row !! field = Some v → (∀ s, v ≠ VStr s) →
  standardize_field parse_strftime row field = Raise TypeError.
Proof.
  unfold standardize_field. intros -> Hv. destruct v as [s| | |]; try done.
  by destruct (Hv s).
Qed.

Lemma standardize_row_not_ValueError (row : gmap string value) :
  standardize_row parse_strftime row ≠ Raise ValueError.
Proof.
  unfold standardize_row, time_fields. simpl.
  destruct (standardize_field _ row "Time") as [r1|e1] eqn:H1; simpl;
    [|intros [= ->]; by apply standardize_field_not_ValueError in H1].
  destruct (standardize_field _ r1 "Last Contacted") as [r2|e2] eqn:H2; simpl;
    [|intros [= ->]; by apply standardize_field_not_ValueError in H2].
  destruct (standardize_field _ r2 "Installed Date") as [r3|e3] eqn:H3; simpl;
    [done|intros [= ->]; by apply standardize_field_not_ValueError in H3].
Qed.

Lemma standardize_row_Ok (row row' : gmap string value) :
  standardize_row parse_strftime row = Ok row' →
  ∀ field,
    (field ∈ time_fields → normalised_cell parse_strftime (row !! field) (row' !! field)) ∧
    (field ∉ time_fields → row' !! field = row !! field).
Proof.
  unfold standardize_row, time_fields. simpl.
  destruct (standardize_field _ row "Time") as [r1|e1] eqn:H1; simpl; [|done].
  destruct (standardize_field _ r1 "Last Contacted") as [r2|e2] eqn:H2; simpl; [|done].
  destruct (standardize_field _ r2 "Installed Date") as [r3|e3] eqn:H3; simpl; [|done].
  intros [= <-] field.
  apply standardize_field_Ok in H1 as [Hc1 Ho1].
  apply standardize_field_Ok in H2 as [Hc2 Ho2].
  apply standardize_field_Ok in H3 as [Hc3 Ho3].
  split.
  - rewrite !elem_of_cons, elem_of_nil. intros [->|[->|[->|[]]]].
    + by rewrite Ho3, Ho2.
    + rewrite Ho3 by done. by rewrite <-(Ho1 "Last Contacted").
    + by rewrite <-(Ho1 "Installed Date"), <-(Ho2 "Installed Date").
  - rewrite !not_elem_of_cons. intros (? & ? & ? & _).
    by rewrite Ho3, Ho2, Ho1.
Qed.

Lemma standardize_row_not_string (row : gmap string value) (field : string) (v : value) :
  field ∈ time_fields → row !! field = Some v → (∀ s, v ≠ VStr s) →
  ∃ e, standardize_row parse_strftime row = Raise e ∧ e ≠ ValueError ∧
       (field = "Time" → e = TypeError).
Proof.
  intros Hfield Hv Hns.
  destruct (standardize_row parse_strftime row) as [row'|e] eqn:Hrow.
  - destruct (standardize_row_Ok _ _ Hrow field) as [Hcell _].
    specialize (Hcell Hfield). unfold normalised_cell in Hcell. rewrite Hv in Hcell.
    destruct Hcell as (s & -> & _). by destruct (Hns s).
  - exists e. split_and!; [done|intros ->; by apply standardize_row_not_ValueError in Hrow|].
    intros ->. revert Hrow. unfold standardize_row, time_fields. simpl.
    rewrite (standardize_field_not_string _ _ _ Hv Hns). simpl. by intros [= <-].
Qed.

Lemma mapM_result_raises {A B} (f : A → result B) (l : list A) (x : A) (e : exn) :
  x ∈ l → f x = Raise e → ∃ x' e', x' ∈ l ∧ f x' = Raise e' ∧ mapM f l = Raise e'.
Proof.
  induction l as [|y l IH]; [by intros ?%elem_of_nil|].
  intros Hin Hx. simpl.
  destruct (f y) as [b|e1] eqn:Hy; simpl.
  - apply elem_of_cons in Hin as [->|Hin]; [congruence|].
    destruct (IH Hin Hx) as (x' & e' & Hx' & Hfx' & ->).
    exists x', e'. split_and!; [by right|done..].
  - exists y, e1. split_and!; [by left|done..].
Qed.

Lemma standardize_field_total (row : gmap string value) (field : string) :
  parsable_cell parse_strftime (row !! field) →
  is_Ok (standardize_field parse_strftime row field).
Proof.
  unfold parsable_cell, standardize_field.
  destruct (row !! field) as [v|]; [|by eexists].
  intros (s & -> & [[t Ht]|Hs]); simpl; rewrite ?Ht, ?Hs; by eexists.
Qed.

Lemma standardize_row_total (row : gmap string value) :
  (∀ field, field ∈ time_fields → parsable_cell parse_strftime (row !! field)) →
  is_Ok (standardize_row parse_strftime row).
Proof.
  intros Hcells. unfold standardize_row, time_fields. simpl.
  destruct (standardize_field_total row "Time") as [r1 H1];
    [apply Hcells; by left|].
  rewrite H1. simpl. apply standardize_field_Ok in H1 as [_ Ho1].
  destruct (standardize_field_total r1 "Last Contacted") as [r2 H2];
    [rewrite Ho1 by done; apply Hcells; right; by left|].
  rewrite H2. simpl. apply standardize_field_Ok in H2 as [_ Ho2].
  destruct (standardize_field_total r2 "Installed Date") as [r3 H3];
    [rewrite Ho2, Ho1 by done; apply Hcells; right; right; by left|].
  rewrite H3. by eexists.
Qed.

(** C10: on a row whose cells for Time, Last Contacted and Installed Date
    are absent or strings that the parser accepts or rejects with
    [ValueError], normalisation returns, and it replaces each such string
    by its canonical form, or by [None] when the parser raised
    [ValueError], leaving every other field alone.  A cell of one of these
    fields that is not a string (a missing cell read as NaN, say) makes the
    parser raise an exception that is not [ValueError] ([TypeError] when the
    field is Time); no handler catches it before the [except] branch of the
    run, so the run fails with the world as it was instead of storing
    [None] in the cell. *)
Theorem standardize_row_only_ValueError (u : upload) (w : world) :
  time_fields = ["Time"; "Last Contacted"; "Installed Date"] ∧
  (∀ row, (∀ field, field ∈ time_fields → parsable_cell parse_strftime (row !! field)) →
     ∃ row', standardize_row parse_strftime row = Ok row' ∧
       ∀ field,
         (field ∈ time_fields →
            normalised_cell parse_strftime (row !! field) (row' !! field)) ∧
         (field ∉ time_fields → row' !! field = row !! field)) ∧
  (∀ row field v,
     field ∈ time_fields → row !! field = Some v → (∀ s, v ≠ VStr s) →
     ∃ e, standardize_row parse_strftime row = Raise e ∧ e ≠ ValueError ∧
          (field = "Time" → e = TypeError)) ∧
  standardize_row parse_strftime {[ "Time" := VNaN 0 ]} = Raise TypeError ∧
  (∀ rows row field v,
     falsy (file_path u) = false → falsy (data_category u) = false →
     load_fault u = false → csv_rows u = Ok rows →
     row ∈ rows → field ∈ time_fields → row !! field = Some v → (∀ s, v ≠ VStr s) →
     ∃ e, run u w = (w, Failed e) ∧ e ≠ ValueError).
Proof.
  split_and!.
  - reflexivity.
  - intros row Hcells. destruct (standardize_row_total row Hcells) as [row' Hrow].
    exists row'. split; [done|]. by apply standardize_row_Ok.
  - apply standardize_row_not_string.
  - destruct (standardize_row_not_string {[ "Time" := VNaN 0 ]} "Time" (VNaN 0))
      as (e & -> & _ & He); [by left|apply lookup_singleton_eq|done|].
    by rewrite He.
  - intros rows row field v Hfile Hcat Hload Hcsv Hrow Hfield Hv Hns.
    destruct (standardize_row_not_string row field v Hfield Hv Hns) as (e0 & He0 & _).
    destruct (mapM_result_raises _ _ _ _ Hrow He0) as (row1 & e & _ & He & Hall).
    exists e. split; [|intros ->; by apply standardize_row_not_ValueError in He].
    apply process_data_prepare_fails; [done..|].
    apply prepare_final_fails; [done|].
    unfold final_data. rewrite Hcsv. simpl. by rewrite Hall.
Qed.

(** C7, as amended: in each of the four categories that have an identity
    field, a record that lacks it makes [assign_unique_identifiers] raise
    [KeyError] with the name of that field: the method does not return a
    batch from which the record has been left out.  [process_data] calls the
    two functions of [utils]; an exception that they raise while the records
    of a run are computed ends the run in the [except] branch with the world
    as it was: nothing is merged and nothing is saved. *)
Theorem missing_field_raises_KeyError (u : upload) (w : world) :
  (∀ category field pre entry post existing,
     (category, field) ∈ identity_fields →
     well_formed (default ∅ existing) →
     Forall (λ e, is_Some (e !! field)) pre →
     entry !! field = None →
     assign_unique_identifiers (pre ++ entry :: post) category existing
     = Raise (KeyError (VStr field))) ∧
  (∀ e,
     falsy (file_path u) = false → falsy (data_category u) = false →
     load_fault u = false → run_final u = Raise e →
     run u w = (w, Failed e)).
Proof.
  split.
  - intros category field pre entry post existing
      Hf%identity_fields_sender_field Hwf Hpre Hmiss.
    destruct (well_formed_initial_next_id _ Hwf) as [n Hn].
    apply initial_next_id_next_number in Hn as Hnext.
    destruct (assign_loop_total category field pre (AssignState (default ∅ existing) n [])
                Hf Hnext Hpre) as [st1 Hrun1].
    unfold assign_unique_identifiers. rewrite Hn. simpl.
    rewrite for_each_app, Hrun1. simpl.
    by rewrite (assign_entry_missing _ _ _ _ Hf Hmiss).
  - intros e Hfile Hcat Hload Hfinal.
    apply process_data_prepare_fails; [done..|]. by apply prepare_final_fails.
Qed.

(** [app.py] declares [unique_identifiers] global but never binds it: while
    the name is unbound, line 151 raises [NameError] and no run reaches the
    save. *)
Lemma process_data_unbound_global (u : upload) (w w' : world) (o : outcome) :
  unique_identifiers w = None → run u w = (w', o) → w' = w ∧ o ≠ Saved.
Proof.
  intros Hids. unfold process_data, try_block.
  destruct (falsy (file_path u)); [by intros [= <- <-]|].
  destruct (falsy (data_category u)); [by intros [= <- <-]|].
  destruct (run_prepare u w); rewrite ?Hids; by intros [= <- <-].
Qed.

End run_facts.


(** ** The run on concrete uploads

    The parser is taken to return its argument (the timestamps below are
    already canonical), and the two functions of [utils], which are
    parameters of the run, are given the sample values
    [categorize_by_columns] and [filter_each_category]. *)

Lemma process_data_atomic_witness :
  let alice : gmap string value :=
    {[ "Time" := VStr "2024-01-01T10:00:00"; "Sender" := VStr "Alice"; "Text" := VStr "hi" ]} in
  let u := Upload (Some "export.csv") (Some "Messenger") (Ok [alice]) false true in
  let w := World None (Some ∅) in
  (process_data (λ s, Ok s) categorize_by_columns filter_each_category u w).2 ≠ Saved.
Proof.
  intros alice u w.
  refine (proj1 (proj2 (proj2
    (process_data_atomic (λ s, Ok s) categorize_by_columns filter_each_category u w))) _).
  reflexivity.
Defined.


Lemma standardize_row_only_ValueError_witness :
  let row : gmap string value := {[ "Last Contacted" := VInt 20240101; "Name" := VStr "Alice" ]} in
  let u := Upload (Some "export.csv") (Some "Contacts") (Ok [row]) false false in
  let w := World None (Some ∅) in
  ∃ e, process_data (λ s, Ok s) categorize_by_columns filter_each_category u w
       = (w, Failed e) ∧ e ≠ ValueError.
Proof.
  intros row u w.
  refine (proj2 (proj2 (proj2 (proj2
    (standardize_row_only_ValueError (λ s, Ok s) categorize_by_columns
       filter_each_category u w))))
    [row] row "Last Contacted" (VInt 20240101) _ _ _ _ _ _ _ _).
  - reflexivity.
  - reflexivity.
  - reflexivity.
  - reflexivity.
  - apply list_elem_of_singleton. reflexivity.
  - right. left.
  - vm_compute; reflexivity.
  - intros s Hs. discriminate Hs.
Defined.

Lemma missing_field_raises_KeyError_witness :
  let alice (field : string) : gmap string value :=
    {[ field := VStr "Alice"; "Time" := VStr "t1" ]} in
  let anonymous : gmap string value := {[ "Time" := VStr "t2"; "Text" := VStr "hey" ]} in
  Forall (λ cf : string * string,
            assign_unique_identifiers ([alice cf.2] ++ anonymous :: [alice cf.2]) cf.1 None
            = Raise (KeyError (VStr cf.2)))
    identity_fields.
Proof.
  intros alice anonymous. apply Forall_forall. intros [category field] Hcf.
  refine (proj1
    (missing_field_raises_KeyError (λ s, Ok s) (λ _, Ok ∅) (λ categorized, Ok categorized)
       (Upload None None (Ok []) false false) (World None None))
    category field [alice field] anonymous [alice field] None Hcf _ _ _).
  - apply map_Forall_empty.
  - apply Forall_cons. split; [exists (VStr "Alice"); apply lookup_insert_eq|].
    apply Forall_nil_2.
  - revert Hcf. unfold identity_fields. rewrite !elem_of_cons, elem_of_nil.
    intros [H|[H|[H|[H|[]]]]]; injection H as -> ->; vm_compute; reflexivity.
Defined.

(** C7, as stated, fails: the exception is a [KeyError] that carries the
    name of the missing column and nothing of the record, so two different
    offending records raise the very same exception. *)
Lemma missing_field_error_names_column_only :
  let first : gmap string value := {[ "Time" := VStr "t1"; "Text" := VStr "hi" ]} in
  let second : gmap string value := {[ "Time" := VStr "t2"; "Text" := VStr "hey" ]} in
  first ≠ second ∧
  assign_unique_identifiers [first] "Messenger" None = Raise (KeyError (VStr "Sender")) ∧
  assign_unique_identifiers [second] "Messenger" None = Raise (KeyError (VStr "Sender")).
Proof.
  intros first second. split_and!.
  - intros Heq. assert (first !! "Time" = second !! "Time") as Ht by (by rewrite Heq).
    vm_compute in Ht. discriminate Ht.
  - vm_compute; reflexivity.
  - vm_compute; reflexivity.
Qed.


(** ** Examples *)

(** Columns that satisfy both Messenger and Keylog are Messenger. *)
Example detect_overlap :
  detect_data_category ["Application"; "Time"; "Sender"; "Text"] = Some "Messenger" ∧
  detect_data_category ["Text"; "Time"; "Application"; "Window"] = Some "Keylog" ∧
  detect_data_category ["Time"; "Text"] = None.
Proof. split_and!; reflexivity. Qed.

(** The scenario of the specification: two equal Messenger records from
    Alice both receive [ID_001]. *)
Example alice_twice :
  let alice : gmap string value :=
    {[ "Time" := VStr "t1"; "Sender" := VStr "Alice"; "Text" := VStr "hi" ]} in
  assign_unique_identifiers [alice; alice] "Messenger" None
  = Ok ([with_identifier "ID_001" alice; with_identifier "ID_001" alice],
        {[ VStr "Alice" := "ID_001" ]}).
Proof.
  intros alice. apply (bool_decide_eq_true_1 _); vm_compute; reflexivity.
Qed.

(** Identifiers around one thousand. *)
Example format_id_examples :
  format_id 7 = "ID_007" ∧ format_id 42 = "ID_042" ∧ format_id 999 = "ID_999" ∧
  format_id 1000 = "ID_1000" ∧ format_id 12345 = "ID_12345" ∧
  id_number "ID_007" = Ok 7%N ∧ id_number "ID_1000" = Ok 1000%N ∧
  id_number "ID" = Raise IndexError ∧ id_number "ID_x" = Raise ValueError.
Proof. split_and!; reflexivity. Qed.

(** A missing cell in the Time column aborts the normalisation of its row,
    whatever the parser does on strings. *)
Example nan_time_cell (parse_strftime : string → result string) :
  standardize_row parse_strftime {[ "Time" := VNaN 0; "Text" := VStr "hi" ]}
  = Raise TypeError.
Proof.
  unfold standardize_row, time_fields, for_each, standardize_field.
  assert (({[ "Time" := VNaN 0; "Text" := VStr "hi" ]} : gmap string value) !! "Time"
          = Some (VNaN 0)) as -> by (vm_compute; reflexivity).
  reflexivity.
Qed.

(** Line 176 reads the table before the loop looks at the category: a table
    with an identifier that has no numeric suffix makes the method raise even
    for a category without identity field. *)
Example malformed_table :
  assign_unique_identifiers [] "Keylog" (Some {[ VStr "Alice" := "Alice" ]})
  = Raise IndexError ∧
  assign_unique_identifiers [] "Keylog" (Some {[ VStr "Alice" := "ID_one" ]})
  = Raise ValueError.
Proof. split; vm_compute; reflexivity. Qed.

(** * Further properties of the code *)

(** ** Detection and the two registries *)

Lemma first_match_mono (columns columns' : list string)
    (cats : list (string * list string)) (category : string) :
  columns ⊆ columns' → first_match columns cats = Some category →
  ∃ (i j : nat) category',
    cats.*1 !! i = Some category' ∧ cats.*1 !! j = Some category ∧ (i ≤ j)%nat ∧
    first_match columns' cats = Some category'.
Proof.
  intros Hsub. induction cats as [|[c0 r0] cats IH]; simpl; [done|].
  destruct (all_in columns r0) eqn:Hr0.
  - intros [= <-]. apply all_in_subseteq in Hr0.
    assert (all_in columns' r0 = true) as -> by (apply all_in_subseteq; set_solver).
    by exists 0%nat, 0%nat, c0.
  - intros Hrest. destruct (IH Hrest) as (i & j & c' & Hi & Hj & Hle & Hm).
    destruct (all_in columns' r0).
    + exists 0%nat, (S j), c0. split_and!; [done..|lia|done].
    + exists (S i), (S j), c'. split_and!; [done..|lia|done].
Qed.

(** More columns never lose the category, they can only move the result to
    a category that comes earlier in the order of the registry (Keylog
    columns with a Sender column added are Messenger). *)
Theorem detect_data_category_more_columns (columns columns' : list string)
    (category : string) :
  columns ⊆ columns' → detect_data_category columns = Some category →
  ∃ category', detect_data_category columns' = Some category' ∧
               no_later category' category.
Proof.
  intros Hsub Hdet.
  destruct (first_match_mono _ _ _ _ Hsub Hdet) as (i & j & c' & Hi & Hj & Hle & Hm).
  exists c'. split; [done|]. by exists i, j.
Qed.

Lemma detect_data_category_more_columns_witness :
  ∃ category',
    detect_data_category ["Application"; "Time"; "Text"; "Sender"] = Some category' ∧
    no_later category' "Keylog".
Proof.
  apply (detect_data_category_more_columns ["Application"; "Time"; "Text"]).
  - intros col Hcol.
    apply (elem_of_app ["Application"; "Time"; "Text"] ["Sender"]). left. exact Hcol.
  - reflexivity.
Defined.

Lemma lookup_literal_elem_of {A} (d : list (string * A)) (key : string) (a : A) :
  lookup_literal d key = Ok a → (key, a) ∈ d.
Proof.
  unfold lookup_literal.
  destruct (list_find _ d) as [[i [k a']]|] eqn:Hfind; [|done].
  intros [= <-]. apply list_find_Some in Hfind as (Hi & Hk & _). simpl in Hk. subst k.
  by eapply list_elem_of_lookup_2.
Qed.

(** Every category of the detector has a dedup key, and the fields of that
    key and the identity field are among its required columns. *)
Lemma registry_fields (category : string) (required : list string) :
  (category, required) ∈ categories →
  ∃ fields, lookup_literal unique_fields category = Ok fields ∧
            fields ⊆ required ∧
            ∀ field, sender_field category = Some field → field ∈ required.
Proof.
  unfold categories. rewrite !elem_of_cons, elem_of_nil.
  intros [H|[H|[H|[H|[H|[H|[]]]]]]]; injection H as -> ->;
    (eexists; split_and!;
     [reflexivity
     |intros f; rewrite !elem_of_cons; tauto
     |intros f [= <-]; rewrite !elem_of_cons; tauto]).
Qed.

(** A category that [detect_data_category] returns for the columns of a
    table is one whose dedup-key fields (the list that [unique_fields] holds
    for it) and whose identity field are all columns of the table: they are
    required columns of the category.  So [assign_unique_identifiers] does
    not raise [KeyError] on rows that have the columns of the table. *)
Theorem detected_category_has_its_fields (columns : list string) (category : string)
    (data : list (gmap string value)) (existing : option (gmap value string)) :
  detect_data_category columns = Some category →
  (∀ row col, row ∈ data → col ∈ columns → is_Some (row !! col)) →
  well_formed (default ∅ existing) →
  (∃ fields, (category, fields) ∈ unique_fields ∧ fields ⊆ columns) ∧
  (∀ field, sender_field category = Some field → field ∈ columns) ∧
  is_Ok (assign_unique_identifiers data category existing).
Proof.
  intros (i & required & Hi & Hreq & _)%first_match_Some Hrows Hwf.
  apply list_elem_of_lookup_2 in Hi.
  destruct (registry_fields _ _ Hi) as (fields & Hfields & Hsub & Hsender).
  split_and!.
  - exists fields. split; [by apply lookup_literal_elem_of|].
    intros f Hf. by apply Hreq, Hsub.
  - intros f Hf. by apply Hreq, Hsender.
  - apply assign_unique_identifiers_total; [done|].
    intros f Hf. apply Forall_forall. intros row Hrow.
    apply (Hrows row f Hrow). by apply Hreq, Hsender.
Qed.

Lemma detected_category_has_its_fields_witness :
  let row : gmap string value :=
    {[ "Name" := VStr "Alice"; "Phone Number" := VInt 5550100;
       "Email Id" := VNaN 0; "Last Contacted" := VNone ]} in
  is_Ok (assign_unique_identifiers [row] "Contacts" None).
Proof.
  intros row.
  refine (proj2 (proj2 (detected_category_has_its_fields
           ["Name"; "Phone Number"; "Email Id"; "Last Contacted"] "Contacts" [row] None
           _ _ _))).
  - reflexivity.
  - intros r col Hr Hcol. apply list_elem_of_singleton in Hr. subst r.
    repeat (apply elem_of_cons in Hcol as [->|Hcol]; [eexists; vm_compute; reflexivity|]).
    by apply elem_of_nil in Hcol.
  - apply map_Forall_empty.
Defined.

(** The two registries list the same categories in the same order, and
    these are the only categories that [detect_data_category] returns.  A
    category that is not among them is no error for identifier assignment,
    which treats it like Keylog and hands the batch and the table back. *)
Theorem unknown_category (category : string) :
  category ∉ categories.*1 →
  unique_fields.*1 = categories.*1 ∧
  (∀ columns, detect_data_category columns ≠ Some category) ∧
  (∀ data existing,
     well_formed (default ∅ existing) →
     assign_unique_identifiers data category existing = Ok (data, default ∅ existing)).
Proof.
  intros Hcat. split_and!; [reflexivity| |].
  - intros columns (i & required & Hi & _)%first_match_Some.
    apply Hcat, list_elem_of_fmap. exists (category, required).
    split; [done|]. by eapply list_elem_of_lookup_2.
  - intros data existing Hwf.
    assert (sender_field category = None) as Hf.
    { unfold sender_field. revert Hcat. unfold categories. simpl.
      rewrite !not_elem_of_cons. intros (? & ? & ? & ? & ? & ? & _).
      rewrite bool_decide_eq_false_2
        by (rewrite !elem_of_cons, elem_of_nil; intros [?|[?|[?|[]]]]; congruence).
      by rewrite bool_decide_eq_false_2. }
    destruct (well_formed_initial_next_id _ Hwf) as [n Hn].
    apply assign_unique_identifiers_Ok. eexists n, _.
    split; [done|]. split; [by apply assign_loop_skip|done].
Qed.

Lemma unknown_category_witness :
  let r : gmap string value := {[ "Time" := VStr "t1"; "Sender" := VStr "Alice" ]} in
  assign_unique_identifiers [r] "WhatsApp" None = Ok ([r], ∅).
Proof.
  intros r.
  refine (proj2 (proj2 (unknown_category "WhatsApp" _)) [r] None _).
  - unfold categories. simpl. rewrite !not_elem_of_cons.
    split_and!; try discriminate. apply not_elem_of_nil.
  - apply map_Forall_empty.
Defined.

(** ** Identifier assignment, again *)

Lemma sender_field_not_identifier (category field : string) :
  sender_field category = Some field → field ≠ "identifier".
Proof.
  intros [[_ ->]|[[_ ->]|[[_ ->]|[_ ->]]]]%sender_field_cases; discriminate.
Qed.

Lemma with_identifier_lookup_ne (id field : string) (entry : gmap string value) :
  field ≠ "identifier" → with_identifier id entry !! field = entry !! field.
Proof. intros Hne. unfold with_identifier. by rewrite lookup_insert_ne. Qed.

(** The loop on a batch whose identity values are all in the table. *)
Lemma assign_loop_known (category field : string) (T : gmap value string) (n : N)
    (data out done : list (gmap string value)) :
  sender_field category = Some field →
  Forall2 (attached field T) data out →
  for_each (assign_entry category) (AssignState T n done) data
  = Ok (AssignState T n (done ++ out)).
Proof.
  intros Hf Hatt. revert done.
  induction Hatt as [|entry o data out (s & id & Hs & Hid & ->) _ IH]; intros done.
  - by rewrite app_nil_r.
  - rewrite for_each_cons.
    rewrite (assign_entry_known _ _ (AssignState T n done) _ _ _ Hf Hs Hid).
    rewrite bind_Ok. simpl. rewrite IH. by rewrite <-app_assoc.
Qed.

(** The loop on the records that it has returned. *)
Lemma assign_loop_again (category field : string) (T : gmap value string) (n : N)
    (data out done : list (gmap string value)) :
  sender_field category = Some field →
  Forall2 (attached field T) data out →
  for_each (assign_entry category) (AssignState T n done) out
  = Ok (AssignState T n (done ++ out)).
Proof.
  intros Hf Hatt. apply assign_loop_known with (field := field); [done|].
  apply Forall2_same_length_lookup. split; [done|].
  intros i o o' Ho Ho'. rewrite Ho in Ho'. injection Ho' as <-.
  destruct (Forall2_lookup_r _ _ _ _ _ Hatt Ho) as (entry & _ & s & id & Hs & Hid & ->).
  exists s, id. split_and!; [|done|].
  - rewrite with_identifier_lookup_ne; [done|]. by eapply sender_field_not_identifier.
  - unfold with_identifier. by rewrite insert_insert_eq.
Qed.

(** Running the method again, on the same batch or on the records it has
    returned, with the table it has returned, changes nothing: the same
    records and the same table come back, and no identifier is minted. *)
Theorem assign_unique_identifiers_idempotent
    (data out : list (gmap string value)) (category : string)
    (existing : option (gmap value string)) (T' : gmap value string) :
  assign_unique_identifiers data category existing = Ok (out, T') →
  assign_unique_identifiers data category (Some T') = Ok (out, T') ∧
  assign_unique_identifiers out category (Some T') = Ok (out, T').
Proof.
  intros (n & st' & Hn & Hrun & <- & <-)%assign_unique_identifiers_Ok.
  apply initial_next_id_next_number in Hn as Hnext.
  destruct (sender_field category) as [field|] eqn:Hf.
  - destruct (assign_loop_invariants _ _ _ (AssignState _ _ _) _ Hf Hnext Hrun)
      as (_ & Hn' & _ & _ & out & Hdone & Hatt).
    simpl in *. subst out.
    apply next_number_initial_next_id in Hn'.
    split; apply assign_unique_identifiers_Ok; eexists _, _;
      (split; [exact Hn'|]); simpl.
    + split; [by eapply assign_loop_known|done].
    + split; [by eapply assign_loop_again|done].
  - rewrite (assign_loop_skip _ _ _ Hf) in Hrun. injection Hrun as <-. simpl.
    split; apply assign_unique_identifiers_Ok; eexists n, _;
      (split; [exact Hn|]); (split; [by apply assign_loop_skip|done]).
Qed.

Lemma assign_unique_identifiers_idempotent_witness :
  let alice : gmap string value :=
    {[ "Time" := VStr "t1"; "Sender" := VStr "Alice"; "Text" := VStr "hi" ]} in
  ∃ out T',
    assign_unique_identifiers [alice] "Messenger" None = Ok (out, T') ∧
    assign_unique_identifiers out "Messenger" (Some T') = Ok (out, T').
Proof.
  intros alice.
  destruct (assign_unique_identifiers_total [alice] "Messenger" None) as [[out T'] Hrun].
  - apply map_Forall_empty.
  - intros field [= <-]. constructor; [|constructor].
    exists (VStr "Alice"). vm_compute; reflexivity.
  - exists out, T'. split; [exact Hrun|].
    exact (proj2 (assign_unique_identifiers_idempotent _ _ _ _ _ Hrun)).
Defined.

(** The loop adds to the table exactly the identity values of the batch, and
    its counter advances by one for each value it adds, every number in
    between being the suffix of an added identifier. *)
Lemma assign_loop_dense (category field : string)
    (data : list (gmap string value)) (st st' : assign_state) :
  sender_field category = Some field →
  next_number (as_identifiers st) (as_next_id st) →
  for_each (assign_entry category) st data = Ok st' →
  dom (as_identifiers st')
  = dom (as_identifiers st) ∪ list_to_set (identity_values field data) ∧
  N.of_nat (size (as_identifiers st'))
  = (N.of_nat (size (as_identifiers st)) + (as_next_id st' - as_next_id st))%N ∧
  ∀ m, (as_next_id st ≤ m < as_next_id st')%N →
       ∃ k, as_identifiers st !! k = None ∧ as_identifiers st' !! k = Some (format_id m).
Proof.
  intros Hf. revert st. induction data as [|entry data IH]; intros st Hn Hrun.
  - injection Hrun as <-. simpl.
    split_and!; [by rewrite (right_id_L ∅ (∪))|lia|intros; lia].
  - rewrite for_each_cons in Hrun.
    destruct (entry !! field) as [sender|] eqn:Hs;
      [|by rewrite (assign_entry_missing _ _ _ _ Hf Hs) in Hrun].
    assert (identity_values field (entry :: data)
            = sender :: identity_values field data) as ->
      by (unfold identity_values; simpl; by rewrite Hs).
    destruct (as_identifiers st !! sender) as [id|] eqn:Hid.
    + rewrite (assign_entry_known _ _ _ _ _ _ Hf Hs Hid), bind_Ok in Hrun.
      destruct (IH (AssignState _ _ _) Hn Hrun) as (Hdom & Hsize & Hdense). simpl in *.
      split_and!; [|done..]. rewrite Hdom.
      apply elem_of_dom_2 in Hid. apply set_eq. intros x.
      rewrite !elem_of_union, elem_of_singleton.
      split; [tauto|]. intros [?|[->|?]]; tauto.
    + rewrite (assign_entry_fresh _ _ _ _ _ Hf Hs Hid), bind_Ok in Hrun.
      pose proof (next_number_insert _ _ sender Hn) as Hn1.
      destruct (IH (AssignState _ _ _) Hn1 Hrun) as (Hdom & Hsize & Hdense).
      destruct (assign_loop_invariants _ _ _ (AssignState _ _ _) _ Hf Hn1 Hrun)
        as (Hsub & _ & Hle & _).
      simpl in *. split_and!.
      * rewrite Hdom, dom_insert_L. apply set_eq. intros x.
        rewrite !elem_of_union, elem_of_singleton. tauto.
      * rewrite Hsize, map_size_insert_None by done. lia.
      * intros m Hm. destruct (decide (m = as_next_id st)) as [->|Hne].
        -- exists sender. split; [done|].
           eapply lookup_weaken; [|done]. by rewrite lookup_insert_eq.
        -- destruct (Hdense m) as (k & Hk & Hk'); [lia|].
           exists k. split; [|done].
           apply lookup_insert_None in Hk as [Hk _]. done.
Qed.

(** The method adds to the table exactly the identity values of the batch;
    the next number grows by the number of values added, and every number
    from the old next number up to the new one is the suffix of the
    identifier of one added value: no number is skipped. *)
Theorem assign_unique_identifiers_dense
    (data out : list (gmap string value)) (category field : string)
    (existing : option (gmap value string)) (T' : gmap value string) :
  sender_field category = Some field →
  assign_unique_identifiers data category existing = Ok (out, T') →
  dom T' = dom (default ∅ existing) ∪ list_to_set (identity_values field data) ∧
  ∃ n n',
    next_number (default ∅ existing) n ∧ next_number T' n' ∧ (n ≤ n')%N ∧
    N.of_nat (size T') = (N.of_nat (size (default ∅ existing)) + (n' - n))%N ∧
    ∀ m, (n ≤ m < n')%N →
         ∃ k, default ∅ existing !! k = None ∧ T' !! k = Some (format_id m).
Proof.
  intros Hf (n & st' & Hn & Hrun & _ & <-)%assign_unique_identifiers_Ok.
  apply initial_next_id_next_number in Hn as Hnext.
  destruct (assign_loop_dense _ _ _ (AssignState _ _ _) _ Hf Hnext Hrun)
    as (Hdom & Hsize & Hdense).
  destruct (assign_loop_invariants _ _ _ (AssignState _ _ _) _ Hf Hnext Hrun)
    as (_ & Hn' & Hle & _).
  simpl in *. split; [done|]. by exists n, (as_next_id st').
Qed.

Lemma assign_unique_identifiers_dense_witness :
  let alice : gmap string value :=
    {[ "Time" := VStr "t1"; "Sender" := VStr "Alice"; "Text" := VStr "hi" ]} in
  ∃ out T',
    assign_unique_identifiers [alice; alice] "Messenger" None = Ok (out, T') ∧
    dom T' = dom (∅ : gmap value string)
             ∪ list_to_set (identity_values "Sender" [alice; alice]).
Proof.
  intros alice.
  destruct (assign_unique_identifiers_total [alice; alice] "Messenger" None)
    as [[out T'] Hrun].
  - apply map_Forall_empty.
  - intros field [= <-]. repeat constructor; exists (VStr "Alice"); vm_compute; reflexivity.
  - exists out, T'. split; [exact Hrun|].
    exact (proj1 (assign_unique_identifiers_dense _ _ "Messenger" "Sender" None T'
                    eq_refl Hrun)).
Defined.

Lemma id_number_errors (id : string) (e : exn) :
  id_number id = Raise e → e = IndexError ∨ e = ValueError.
Proof.
  unfold id_number, python_int.
  destruct (split_on "_" id !! 1%nat) as [suffix|]; [|intros [= <-]; by left].
  destruct (NilZero.uint_of_string suffix); [done|intros [= <-]; by right].
Qed.

(** A table that holds an identifier without underscore makes the method
    raise, whatever the batch and the category (Keylog included): line 176
    reads every identifier of the table before the loop starts. *)
Theorem assign_unique_identifiers_malformed_table
    (data : list (gmap string value)) (category : string)
    (T : gmap value string) (k : value) (id : string) :
  T !! k = Some id → id_number id = Raise IndexError →
  ∃ e, assign_unique_identifiers data category (Some T) = Raise e ∧
       (e = IndexError ∨ e = ValueError).
Proof.
  intros Hk Hid.
  assert (id ∈ (map_to_list T).*2) as Hin by (apply values_elem_of; eauto).
  destruct (mapM_result_raises _ _ _ _ Hin Hid) as (id' & e & _ & He & Hall).
  exists e. split; [|by eapply id_number_errors].
  assert (initial_next_id T = Raise e) as Hinit.
  { unfold initial_next_id.
    destruct ((map_to_list T).*2) as [|id0 ids] eqn:Hids; [by apply elem_of_nil in Hin|].
    cbv beta iota. by rewrite Hall. }
  unfold assign_unique_identifiers. simpl. by rewrite Hinit.
Qed.

Lemma assign_unique_identifiers_malformed_table_witness :
  ∃ e, assign_unique_identifiers [] "Keylog" (Some {[ VStr "Alice" := "Alice" ]})
       = Raise e ∧ (e = IndexError ∨ e = ValueError).
Proof.
  apply (assign_unique_identifiers_malformed_table [] "Keylog" _ (VStr "Alice") "Alice").
  - apply lookup_singleton_eq.
  - reflexivity.
Defined.

(** ** What identifier assignment leaves alone *)

(** The method changes no column of a record other than [identifier]:
    each record comes back as it was or with an identifier attached.  No
    required column of a category and no field of a dedup key is called
    [identifier], so what detection and the dedup key read in a record is the
    same before and after. *)
Theorem assign_unique_identifiers_only_adds_identifier
    (data out : list (gmap string value)) (category : string)
    (existing : option (gmap value string)) (T' : gmap value string) :
  assign_unique_identifiers data category existing = Ok (out, T') →
  Forall2 labelled data out ∧
  Forall2 (λ entry o, ∀ field, field ≠ "identifier" → o !! field = entry !! field)
    data out ∧
  (∀ c fields field,
     (c, fields) ∈ categories ∨ (c, fields) ∈ unique_fields →
     field ∈ fields → field ≠ "identifier").
Proof.
  intros (n & st' & Hn & Hrun & <- & <-)%assign_unique_identifiers_Ok.
  apply initial_next_id_next_number in Hn as Hnext.
  assert (Forall2 labelled data (as_done st')) as Hrel.
  { destruct (sender_field category) as [field|] eqn:Hf.
    - destruct (assign_loop_invariants _ _ _ (AssignState _ _ _) _ Hf Hnext Hrun)
        as (_ & _ & _ & _ & out & -> & Hatt).
      simpl. eapply Forall2_impl; [exact Hatt|].
      intros e o (s & id & _ & _ & ->). right. by exists id.
    - rewrite (assign_loop_skip _ _ _ Hf) in Hrun. injection Hrun as <-. simpl.
      apply Forall_Forall2_diag, Forall_forall. intros e _. by left. }
  split_and!; [done| |].
  - eapply Forall2_impl; [exact Hrel|].
    intros e o [->|[id ->]] field Hne; [done|]. by apply with_identifier_lookup_ne.
  - intros c fields field Hc Hfield ->.
    destruct Hc as [Hc|Hc]; revert Hc;
      [unfold categories|unfold unique_fields];
      rewrite !elem_of_cons, elem_of_nil; intros H;
      repeat (destruct H as [H|H];
              [injection H as -> ->; revert Hfield;
               rewrite !elem_of_cons, elem_of_nil; intros Hf;
               repeat (destruct Hf as [Hf|Hf]; [discriminate Hf|]); exact Hf|]);
      exact H.
Qed.

Lemma assign_unique_identifiers_only_adds_identifier_witness :
  let alice : gmap string value :=
    {[ "Time" := VStr "t1"; "Sender" := VStr "Alice"; "Text" := VStr "hi" ]} in
  ∃ out T',
    assign_unique_identifiers [alice; alice] "Messenger" None = Ok (out, T') ∧
    Forall2 labelled [alice; alice] out.
Proof.
  intros alice.
  destruct (assign_unique_identifiers_total [alice; alice] "Messenger" None)
    as [[out T'] Hrun].
  - apply map_Forall_empty.
  - intros field [= <-]. repeat constructor; exists (VStr "Alice"); vm_compute; reflexivity.
  - exists out, T'. split; [exact Hrun|].
    exact (proj1 (assign_unique_identifiers_only_adds_identifier _ _ _ _ _ Hrun)).
Defined.

(** ** The run, again *)

Lemma for_each_raises {S A} (body : S → A → result S) (st : S) (xs : list A) (e : exn) :
  for_each body st xs = Raise e → ∃ s x, x ∈ xs ∧ body s x = Raise e.
Proof.
  revert st. induction xs as [|x xs IH]; intros st; [done|].
  rewrite for_each_cons. destruct (body st x) as [st1|e1] eqn:Hx.
  - rewrite bind_Ok. intros (s & y & Hy & Hbody)%IH. exists s, y. split; [by right|done].
  - intros [= <-]. exists st, x. split; [by left|done].
Qed.

(** The merge loop completes exactly when no category of the run is stored
    as a dictionary in the document (as the identifier table is, under the
    key [identifiers]); when it does not complete, the exception is the
    [AttributeError] of [extend]. *)
Theorem merge_fails_only_on_dictionary
    (final : gmap string (list (gmap string value))) (existing : gmap string json) :
  (is_Ok (merge final existing) ↔
   ∀ category d, existing !! category = Some (JDict d) → final !! category = None) ∧
  (∀ e, merge final existing = Raise e → e = AttributeError) ∧
  (∀ merged, merge final existing = Ok merged → dom merged = dom existing ∪ dom final).
Proof.
  split_and!.
  - split; [|apply (proj2 (merge_spec final existing))].
    intros [merged Hm] category d Hd.
    destruct (final !! category) as [entries|] eqn:Hc; [|done].
    destruct (proj1 (merge_spec final existing) merged Hm) as [Hin _].
    destruct (Hin category entries Hc) as [[?|?] _]; congruence.
  - intros e (s & [c entries] & _ & Hbody)%for_each_raises.
    revert Hbody. unfold merge_category. simpl.
    destruct (bool_decide (s !! c = None)) eqn:Hc.
    + rewrite lookup_insert_eq. done.
    + apply bool_decide_eq_false in Hc.
      destruct (s !! c) as [[l|d]|]; [done|by intros [= <-]|done].
  - intros merged Hm.
    destruct (proj1 (merge_spec final existing) merged Hm) as [Hin Hout].
    apply set_eq. intros c. rewrite elem_of_union, !elem_of_dom.
    destruct (final !! c) as [entries|] eqn:Hc.
    + destruct (Hin c entries Hc) as [_ ->]. split; [intros _; right|]; by eexists.
    + rewrite (Hout c Hc). split; [by left|]. intros [?|[? ?]]; [done|congruence].
Qed.

Section run_more.

Variable parse_strftime : string → result string.
Variable detect_and_categorize :
  list (gmap string value) → result (gmap string (list (gmap string value))).
Variable prevent_duplicates :
  gmap string (list (gmap string value)) →
  result (gmap string (list (gmap string value))).

Local Abbreviation run :=
  (process_data parse_strftime detect_and_categorize prevent_duplicates).

Lemma standardize_field_dom (row row' : gmap string value) (field : string) :
  standardize_field parse_strftime row field = Ok row' → dom row' = dom row.
Proof.
  unfold standardize_field. destruct (row !! field) as [v|] eqn:Hv; [|by intros [= <-]].
  destruct (parse_cell parse_strftime v) as [t|[]]; intros [= <-];
    by apply dom_insert_lookup_L.
Qed.

Lemma standardize_row_dom (row row' : gmap string value) :
  standardize_row parse_strftime row = Ok row' → dom row' = dom row.
Proof.
  unfold standardize_row, time_fields. rewrite for_each_cons.
  destruct (standardize_field _ row "Time") as [r1|e1] eqn:H1; [|done].
  rewrite bind_Ok, for_each_cons.
  destruct (standardize_field _ r1 "Last Contacted") as [r2|e2] eqn:H2; [|done].
  rewrite bind_Ok, for_each_cons.
  destruct (standardize_field _ r2 "Installed Date") as [r3|e3] eqn:H3; [|done].
  rewrite bind_Ok. intros [= <-].
  apply standardize_field_dom in H1, H2, H3. congruence.
Qed.

(** Normalising the timestamps of a table keeps its shape: as many rows
    come back as went in, each with exactly the columns it had, and with a
    string or [None] in every timestamp column it has. *)
Theorem standardize_rows_keep_shape (rows rows' : list (gmap string value)) :
  mapM (standardize_row parse_strftime) rows = Ok rows' →
  length rows' = length rows ∧
  Forall2 (λ row row',
             dom row' = dom row ∧
             ∀ field v, field ∈ time_fields → row' !! field = Some v →
                        v = VNone ∨ ∃ t, v = VStr t) rows rows'.
Proof.
  intros Hall%mapM_result_Ok. split; [symmetry; by eapply Forall2_length|].
  eapply Forall2_impl; [exact Hall|]. intros row row' Hrow. split.
  - by apply standardize_row_dom.
  - intros field v Hfield Hv.
    destruct (standardize_row_Ok _ _ _ Hrow field) as [Hcell _].
    specialize (Hcell Hfield). unfold normalised_cell in Hcell. rewrite Hv in Hcell.
    destruct (row !! field); [|done].
    destruct Hcell as (s & _ & [(t & _ & [= ->])|[_ [= ->]]]); [right; by exists t|by left].
Qed.

Lemma standardize_field_fixed (row : gmap string value) (field t : string) :
  row !! field = Some (VStr t) → parse_strftime t = Ok t →
  standardize_field parse_strftime row field = Ok row.
Proof.
  unfold standardize_field, parse_cell. intros Hv Ht. rewrite Hv, Ht.
  by rewrite insert_id.
Qed.

(** When the parser returns a canonical timestamp unchanged, normalising a
    normalised row again returns it unchanged, provided no timestamp of the
    row had been replaced by [None]; a row with such a [None] cannot be
    normalised again, since [None] is not a string. *)
Theorem standardize_row_again (row row' : gmap string value) :
  (∀ s t, parse_strftime s = Ok t → parse_strftime t = Ok t) →
  standardize_row parse_strftime row = Ok row' →
  ((∀ field, field ∈ time_fields → row' !! field ≠ Some VNone) →
   standardize_row parse_strftime row' = Ok row') ∧
  (∀ field, field ∈ time_fields → row' !! field = Some VNone →
     ∃ e, standardize_row parse_strftime row' = Raise e ∧ e ≠ ValueError).
Proof.
  intros Hcanon Hrow. split.
  - intros Hnone.
    assert (∀ field, field ∈ time_fields →
              standardize_field parse_strftime row' field = Ok row') as Hfix.
    { intros field Hfield.
      destruct (standardize_row_Ok _ _ _ Hrow field) as [Hcell _].
      specialize (Hcell Hfield). unfold normalised_cell in Hcell.
      destruct (row !! field) as [v|].
      - destruct Hcell as (s & _ & [(t & Ht & Hv)|[_ Hv]]).
        + apply (standardize_field_fixed _ _ t); [done|by eapply Hcanon].
        + by destruct (Hnone field Hfield).
      - unfold standardize_field. by rewrite Hcell. }
    unfold standardize_row, time_fields in *. rewrite for_each_cons.
    rewrite (Hfix "Time") by (by left). rewrite bind_Ok, for_each_cons.
    rewrite (Hfix "Last Contacted") by (right; by left). rewrite bind_Ok, for_each_cons.
    rewrite (Hfix "Installed Date") by (right; right; by left). done.
  - intros field Hfield Hv.
    destruct (standardize_row_not_string parse_strftime row' field VNone Hfield Hv)
      as (e & He & Hne & _); [done|]. by exists e.
Qed.

(** A run that ends with the success dialog has saved the entry
    [identifiers] of the document exactly as it loaded it: [process_data]
    itself never writes an identifier to the document.  It only copies the
    stored table into the global dictionary, where the stored identifiers
    take precedence. *)
Theorem process_data_keeps_stored_identifiers (u : upload) (w w' : world) :
  run u w = (w', Saved) →
  ∃ merged stored ids,
    disk w' = Some merged ∧
    merged !! "identifiers" = default ∅ (disk w) !! "identifiers" ∧
    stored_identifiers (default ∅ (disk w)) = Ok stored ∧
    unique_identifiers w = Some ids ∧
    unique_identifiers w' = Some (stored ∪ ids) ∧
    ∀ k id, stored !! k = Some id → (stored ∪ ids) !! k = Some id.
Proof.
  intros (_ & _ & merged & ids & stored & -> & Hp & Hids & Hst & _)%process_data_Saved.
  apply prepare_Ok in Hp as (_ & final & _ & Hm).
  destruct (proj1 (merge_spec final _) merged Hm) as [Hin Hout].
  assert (final !! "identifiers" = None) as Hnone.
  { destruct (final !! "identifiers") as [entries|] eqn:Hc; [|done].
    destruct (Hin "identifiers" entries Hc) as [_ Hs1].
    unfold stored_identifiers in Hst. by rewrite Hs1 in Hst. }
  exists merged, stored, ids. split_and!; [done|by apply Hout| |done|done|].
  - unfold stored_identifiers in *. by rewrite <-(Hout "identifiers" Hnone).
  - intros k id Hk. by apply lookup_union_Some_l.
Qed.

End run_more.

Lemma standardize_rows_keep_shape_witness :
  let row : gmap string value := {[ "Time" := VStr "t1"; "Text" := VStr "hi" ]} in
  ∃ rows', mapM (standardize_row (λ _, Raise ValueError)) [row] = Ok rows' ∧
           length rows' = 1%nat.
Proof.
  intros row.
  destruct (mapM (standardize_row (λ _, Raise ValueError)) [row]) as [rows'|e] eqn:Hrows.
  - exists rows'. split; [reflexivity|].
    exact (proj1 (standardize_rows_keep_shape (λ _, Raise ValueError) [row] rows' Hrows)).
  - exfalso. vm_compute in Hrows. discriminate Hrows.
Defined.

Lemma standardize_row_again_witness :
  let row : gmap string value := {[ "Time" := VStr "t1"; "Text" := VStr "hi" ]} in
  ∃ row', standardize_row (λ s, Ok s) row = Ok row' ∧
          ((∀ field, field ∈ time_fields → row' !! field ≠ Some VNone) →
           standardize_row (λ s, Ok s) row' = Ok row').
Proof.
  intros row.
  destruct (standardize_row (λ s, Ok s) row) as [row'|e] eqn:Hrow.
  - exists row'. split; [reflexivity|].
    refine (proj1 (standardize_row_again (λ s, Ok s) row row' _ Hrow)).
    intros s t Hs. injection Hs as <-. reflexivity.
  - exfalso. vm_compute in Hrow. discriminate Hrow.
Defined.

Lemma process_data_keeps_stored_identifiers_witness :
  let alice : gmap string value :=
    {[ "Time" := VStr "2024-01-01T10:00:00"; "Sender" := VStr "Alice"; "Text" := VStr "hi" ]} in
  let u := Upload (Some "export.csv") (Some "Messenger") (Ok [alice]) false false in
  let doc : gmap string json := {[ "identifiers" := JDict {[ VStr "Bob" := "ID_001" ]} ]} in
  let w := World (Some doc) (Some ∅) in
  let r := process_data (λ s, Ok s) categorize_by_columns filter_each_category u w in
  ∃ merged, disk r.1 = Some merged ∧ merged !! "identifiers" = doc !! "identifiers".
Proof.
  intros alice u doc w r.
  destruct (process_data_keeps_stored_identifiers (λ s, Ok s) categorize_by_columns
              filter_each_category u w r.1)
    as (merged & stored & ids & Hdisk & Hsame & _).
  - assert (r.2 = Saved) as Hsaved by (vm_compute; reflexivity).
    rewrite <-Hsaved. apply surjective_pairing.
  - exists merged. split; [exact Hdisk|exact Hsame].
Defined.

Lemma process_data_unbound_global_witness :
  let alice : gmap string value :=
    {[ "Time" := VStr "2024-01-01T10:00:00"; "Sender" := VStr "Alice"; "Text" := VStr "hi" ]} in
  let u := Upload (Some "export.csv") (Some "Messenger") (Ok [alice]) false false in
  let w := World None None in
  let r := process_data (λ s, Ok s) categorize_by_columns filter_each_category u w in
  r.1 = w ∧ r.2 ≠ Saved.
Proof.
  intros alice u w r.
  apply (process_data_unbound_global (λ s, Ok s) categorize_by_columns
           filter_each_category u w r.1 r.2).
  - reflexivity.
  - apply surjective_pairing.
Defined.

(** ** Receiving an upload *)

(** The copy loop writes the stream after what the file already holds, byte
    for byte, whatever the length of the stream (empty, shorter than a chunk,
    a multiple of the chunk size or not). *)
Lemma write_chunks_appends (stream written : list Byte.byte) :
  Upload.write_chunks stream written = written ++ stream.
Proof.
  apply (Upload.write_chunks_elim (λ stream written res, res = written ++ stream)).
  - intros s Htake w _. destruct s; [by rewrite app_nil_r|done].
  - intros s b chunk Hchunk w IH _. rewrite IH, <-app_assoc. f_equal.
    rewrite <-Hchunk. apply take_drop.
Qed.

Lemma append_not_empty (a b : string) : b ≠ "" → a +:+ b ≠ "".
Proof. intros Hb. destruct a as [|c a]; [by rewrite append_nil|by rewrite append_cons]. Qed.

Lemma endswith_csv_not_empty (filename : string) :
  endswith filename ".csv" = true → filename ≠ "".
Proof. intros H ->. vm_compute in H. discriminate H. Qed.

Lemma os_path_join_not_empty (a b : string) : b ≠ "" → os_path_join a b ≠ "".
Proof.
  intros Hb. unfold os_path_join. destruct (String.prefix "/" b); [done|].
  destruct (bool_decide (a = "") || endswith a "/").
  - by apply append_not_empty.
  - apply append_not_empty. by apply append_not_empty.
Qed.

Lemma detect_data_category_not_empty (columns : list string) (category : string) :
  detect_data_category columns = Some category → category ≠ "".
Proof.
  intros (i & required & Hi & _)%first_match_Some.
  apply list_elem_of_lookup_2 in Hi. revert Hi. unfold categories.
  rewrite !elem_of_cons, elem_of_nil.
  intros [H|[H|[H|[H|[H|[H|[]]]]]]]; injection H as -> _; discriminate.
Qed.

Lemma list_ascii_of_string_append (a b : string) :
  list_ascii_of_string (a +:+ b) = list_ascii_of_string a ++ list_ascii_of_string b.
Proof.
  induction a as [|c a IH]; [by rewrite append_nil|].
  rewrite append_cons. simpl. by rewrite IH.
Qed.

Lemma endswith_append (a b suffix : string) :
  endswith b suffix = true → endswith (a +:+ b) suffix = true.
Proof.
  unfold endswith. intros H%bool_decide_eq_true. apply bool_decide_eq_true.
  rewrite list_ascii_of_string_append. by apply suffix_app_r.
Qed.

Lemma endswith_append_short (a b suffix : string) :
  (length (list_ascii_of_string suffix) ≤ length (list_ascii_of_string b))%nat →
  endswith b suffix = false → endswith (a +:+ b) suffix = false.
Proof.
  unfold endswith. intros Hlen H%bool_decide_eq_false. apply bool_decide_eq_false.
  rewrite list_ascii_of_string_append. intros [k Hk]. apply H.
  apply app_eq_inv in Hk as [(k' & _ & Hs)|(k' & _ & Hb)].
  - rewrite Hs, length_app in Hlen.
    destruct k' as [|c k']; [|simpl in Hlen; lia]. by rewrite Hs.
  - rewrite Hb. by apply suffix_app_r.
Qed.

(** The name ends the joined path. *)
Lemma endswith_os_path_join (a b suffix : string) :
  endswith b suffix = true → endswith (os_path_join a b) suffix = true.
Proof.
  intros Hb. unfold os_path_join. destruct (String.prefix "/" b); [done|].
  destruct (bool_decide (a = "") || endswith a "/").
  - by apply endswith_append.
  - by apply endswith_append, endswith_append.
Qed.

Lemma JSON_DB_PATH_not_csv (app_dir : string) :
  endswith (JSON_DB_PATH app_dir) ".csv" = false.
Proof.
  unfold JSON_DB_PATH, os_path_join.
  change (String.prefix "/" "data.json") with false. cbv iota.
  destruct (bool_decide (app_dir = "") || endswith app_dir "/").
  - apply endswith_append_short; [simpl; lia|by vm_compute].
  - apply endswith_append_short; [simpl; lia|by vm_compute].
Qed.

Section upload_facts.

Variable app_dir : string.
Variable read_csv :
  list Byte.byte → result (list string * list (gmap string value)).
Variable open_wb : string → bool.

Local Abbreviation upload_handler := (handle_upload app_dir read_csv open_wb).

(** The call on an upload that is not turned away. *)
Lemma handle_upload_accepted (e : upload_event) (a : app) (stream : list Byte.byte) :
  content e = Some stream → endswith (name e) ".csv" = true →
  upload_handler e a
  = if open_wb (os_path_join app_dir (name e)) then
      match read_csv stream with
      | Ok (columns, _) =>
          (App (Some (os_path_join app_dir (name e))) (detect_data_category columns)
             (<[os_path_join app_dir (name e) := stream]> (files a)), Ok ())
      | Raise _ =>
          (App (Some (os_path_join app_dir (name e))) (self_data_category a)
             (<[os_path_join app_dir (name e) := stream]> (files a)), Ok ())
      end
    else
      (App (Some (os_path_join app_dir (name e))) (self_data_category a) (files a),
       Raise OSError).
Proof.
  intros Hcontent Hname. unfold handle_upload. rewrite Hcontent, Hname.
  cbn [negb]. cbv zeta.
  destruct (open_wb (os_path_join app_dir (name e))); cbn [negb]; [|done].
  rewrite write_chunks_appends, app_nil_l. unfold read_csv_file.
  by rewrite lookup_insert_eq.
Qed.


(** After an upload that was stored and read, [process_data] finds the
    path of the stored file, the category detected for its columns and the
    rows of the upload; the path is never empty and a detected category is
    never empty, so the guards of [process_data] let the run pass exactly
    when a category was detected. *)
Theorem handle_upload_then_process_data (e : upload_event) (a : app)
    (stream : list Byte.byte) (columns : list string)
    (rows : list (gmap string value)) (load_fault save_fault : bool) :
  content e = Some stream → endswith (name e) ".csv" = true →
  open_wb (os_path_join app_dir (name e)) = true →
  read_csv stream = Ok (columns, rows) →
  let r := upload_handler e a in
  let u := request read_csv r.1 load_fault save_fault in
  r.2 = Ok () ∧
  u = Upload (Some (os_path_join app_dir (name e))) (detect_data_category columns)
        (Ok rows) load_fault save_fault ∧
  falsy (file_path u) = false ∧
  (falsy (data_category u) = true ↔ detect_data_category columns = None) ∧
  ∀ parse_strftime detect_and_categorize prevent_duplicates w,
    detect_data_category columns = None →
    process_data parse_strftime detect_and_categorize prevent_duplicates u w
    = (w, CategoryNotDetected).
Proof.
  intros Hcontent Hname Hopen Hread r u.
  assert (r = (App (Some (os_path_join app_dir (name e))) (detect_data_category columns)
                 (<[os_path_join app_dir (name e) := stream]> (files a)), Ok ())) as Hr.
  { unfold r. by rewrite (handle_upload_accepted e a stream Hcontent Hname), Hopen, Hread. }
  assert (u = Upload (Some (os_path_join app_dir (name e)))
                (detect_data_category columns) (Ok rows) load_fault save_fault) as Hu.
  { unfold u, request. rewrite Hr. cbn [fst self_file_path self_data_category files].
    unfold read_csv_file. by rewrite lookup_insert_eq, Hread. }
  assert (falsy (file_path u) = false) as Hpath.
  { rewrite Hu. cbn [file_path falsy]. apply bool_decide_eq_false.
    by apply os_path_join_not_empty, endswith_csv_not_empty. }
  assert (falsy (data_category u) = true ↔ detect_data_category columns = None) as Hcat.
  { rewrite Hu. cbn [data_category].
    destruct (detect_data_category columns) as [c|] eqn:Hc; [|done]. cbn [falsy].
    split; [|done]. intros Hempty%bool_decide_eq_true.
    by apply detect_data_category_not_empty in Hc. }
  split_and!; [by rewrite Hr|done..|].
  intros parse_strftime detect_and_categorize prevent_duplicates w Hnone.
  unfold process_data. rewrite Hpath. by rewrite (proj2 Hcat Hnone).
Qed.

(** An upload that is stored but cannot be read as CSV replaces the path
    and the file and leaves the category of the earlier upload in place
    ([reset_ui] does not clear it).  A later [process_data] therefore passes
    its guards whenever an earlier category was detected, reads the new file
    again and ends in the [except] branch; the world stays as it was. *)
Theorem handle_upload_unreadable_keeps_category (e : upload_event) (a : app)
    (stream : list Byte.byte) (err : exn) :
  content e = Some stream → endswith (name e) ".csv" = true →
  open_wb (os_path_join app_dir (name e)) = true →
  read_csv stream = Raise err →
  let r := upload_handler e a in
  r.2 = Ok () ∧
  self_file_path r.1 = Some (os_path_join app_dir (name e)) ∧
  self_data_category r.1 = self_data_category a ∧
  ∀ parse_strftime detect_and_categorize prevent_duplicates load_fault save_fault w,
    process_data parse_strftime detect_and_categorize prevent_duplicates
      (request read_csv r.1 load_fault save_fault) w
    = (w, if falsy (self_data_category a) then CategoryNotDetected
          else Failed (if load_fault then OSError else err)).
Proof.
  intros Hcontent Hname Hopen Hread r.
  assert (r = (App (Some (os_path_join app_dir (name e))) (self_data_category a)
                 (<[os_path_join app_dir (name e) := stream]> (files a)), Ok ())) as Hr.
  { unfold r. by rewrite (handle_upload_accepted e a stream Hcontent Hname), Hopen, Hread. }
  split_and!; [by rewrite Hr..|].
  intros parse_strftime detect_and_categorize prevent_duplicates lf sf w.
  assert (falsy (Some (os_path_join app_dir (name e))) = false) as Hpath.
  { apply bool_decide_eq_false.
    by apply os_path_join_not_empty, endswith_csv_not_empty. }
  rewrite Hr. unfold request, process_data.
  cbn [fst file_path data_category self_file_path self_data_category files].
  rewrite Hpath.
  destruct (falsy (self_data_category a)); [done|].
  unfold try_block, prepare, load_json_data, read_csv_file.
  cbn [load_fault csv_rows]. rewrite lookup_insert_eq, Hread.
  by destruct lf.
Qed.

(** An upload whose file cannot be opened for writing still replaces
    [self.file_path] (line 64 runs before line 66) and leaves the category
    of the earlier upload in place.  When no file exists under the new path,
    a later [process_data] passes its guards whenever an earlier category
    was detected and ends in the [except] branch, because the file it is to
    read is not there; the world stays as it was. *)
Theorem handle_upload_open_fails_then_process_data (e : upload_event) (a : app)
    (stream : list Byte.byte) :
  content e = Some stream → endswith (name e) ".csv" = true →
  open_wb (os_path_join app_dir (name e)) = false →
  files a !! os_path_join app_dir (name e) = None →
  let r := upload_handler e a in
  r.2 = Raise OSError ∧
  self_file_path r.1 = Some (os_path_join app_dir (name e)) ∧
  ∀ parse_strftime detect_and_categorize prevent_duplicates load_fault save_fault w,
    process_data parse_strftime detect_and_categorize prevent_duplicates
      (request read_csv r.1 load_fault save_fault) w
    = (w, if falsy (self_data_category a) then CategoryNotDetected else Failed OSError).
Proof.
  intros Hcontent Hname Hopen Hfile r.
  assert (r = (App (Some (os_path_join app_dir (name e))) (self_data_category a) (files a),
               Raise OSError)) as Hr.
  { unfold r. by rewrite (handle_upload_accepted e a stream Hcontent Hname), Hopen. }
  split_and!; [by rewrite Hr..|].
  intros parse_strftime detect_and_categorize prevent_duplicates lf sf w.
  assert (falsy (Some (os_path_join app_dir (name e))) = false) as Hpath.
  { apply bool_decide_eq_false.
    by apply os_path_join_not_empty, endswith_csv_not_empty. }
  rewrite Hr. unfold request, process_data.
  cbn [fst file_path data_category self_file_path self_data_category files].
  rewrite Hpath.
  destruct (falsy (self_data_category a)); [done|].
  unfold try_block, prepare, load_json_data, read_csv_file.
  cbn [load_fault csv_rows]. rewrite Hfile.
  by destruct lf.
Qed.

(** Uploads that are turned away change nothing: after any number of
    them the application is in the state in which it was constructed, and
    [process_data] stops at its first guard.  None of these calls raises. *)
Theorem rejected_uploads_change_nothing (events : list upload_event)
    (fs : gmap string (list Byte.byte)) :
  Forall rejected events →
  foldl (λ a e, (upload_handler e a).1) (__init__ fs) events = __init__ fs ∧
  (∀ parse_strftime detect_and_categorize prevent_duplicates lf sf w,
     process_data parse_strftime detect_and_categorize prevent_duplicates
       (request read_csv (foldl (λ a e, (upload_handler e a).1) (__init__ fs) events) lf sf) w
     = (w, NoFileUploaded)) ∧
  Forall (λ e, ∀ a, upload_handler e a = (a, Ok ())) events.
Proof.
  intros Hall.
  assert (Forall (λ e, ∀ a, upload_handler e a = (a, Ok ())) events) as Hsame.
  { eapply Forall_impl; [exact Hall|]. intros e [He|He] a; unfold handle_upload.
    - by rewrite He.
    - rewrite He. by destruct (content e). }
  assert (foldl (λ a e, (upload_handler e a).1) (__init__ fs) events = __init__ fs) as ->.
  { generalize (__init__ fs). clear Hall.
    induction Hsame as [|e events He _ IH]; intros a; [done|].
    cbn [foldl]. rewrite He. cbn [fst]. apply IH. }
  split_and!; [done| |done]. by intros.
Qed.

(** [handle_upload] writes at most one file, under a path that ends in
    [.csv]: every other file keeps its content, in particular the document
    [data.json] in the same directory. *)
Theorem handle_upload_never_writes_document (e : upload_event) (a : app) :
  (∀ path, endswith path ".csv" = false →
           files (upload_handler e a).1 !! path = files a !! path) ∧
  files (upload_handler e a).1 !! JSON_DB_PATH app_dir = files a !! JSON_DB_PATH app_dir.
Proof.
  assert (∀ path, endswith path ".csv" = false →
            files (upload_handler e a).1 !! path = files a !! path) as Hother.
  { intros path Hpath.
    destruct (content e) as [stream|] eqn:Hcontent;
      [|unfold handle_upload; by rewrite Hcontent].
    destruct (endswith (name e) ".csv") eqn:Hname;
      [|unfold handle_upload; by rewrite Hcontent, Hname].
    assert (path ≠ os_path_join app_dir (name e)) as Hne.
    { intros ->. by rewrite (endswith_os_path_join _ _ _ Hname) in Hpath. }
    rewrite (handle_upload_accepted e a stream Hcontent Hname).
    destruct (open_wb _); [|done].
    destruct (read_csv stream) as [[columns rows]|err]; cbn [fst files];
      by apply lookup_insert_ne. }
  split; [done|]. apply Hother, JSON_DB_PATH_not_csv.
Qed.

End upload_facts.


Lemma handle_upload_then_process_data_witness :
  let e := UploadEvent (Some [Byte.x61; Byte.x0a]) "export.csv" in
  let a := App None (Some "Messenger") ∅ in
  let read_csv : list Byte.byte → result (list string * list (gmap string value)) :=
    λ _, Ok (["a"], []) in
  let open_wb := λ path, negb (String.prefix "/srv/app/nodir/" path) in
  let u := request read_csv (handle_upload "/srv/app" read_csv open_wb e a).1 false false in
  falsy (file_path u) = false ∧ data_category u = None.
Proof.
  intros e a read_csv open_wb u.
  destruct (handle_upload_then_process_data "/srv/app" read_csv open_wb e a
              [Byte.x61; Byte.x0a] ["a"] [] false false)
    as (_ & Hu & Hpath & _).
  - reflexivity.
  - vm_compute; reflexivity.
  - vm_compute; reflexivity.
  - reflexivity.
  - split; [exact Hpath|]. fold u in Hu. rewrite Hu. reflexivity.
Defined.

Lemma handle_upload_unreadable_keeps_category_witness :
  let e := UploadEvent (Some [Byte.x61; Byte.x0a]) "export.csv" in
  let a := App (Some "/srv/app/old.csv") (Some "Messenger") ∅ in
  let open_wb := λ path, negb (String.prefix "/srv/app/nodir/" path) in
  self_data_category (handle_upload "/srv/app" (λ _, Raise ValueError) open_wb e a).1
  = Some "Messenger".
Proof.
  intros e a open_wb.
  refine (proj1 (proj2 (proj2
    (handle_upload_unreadable_keeps_category "/srv/app" (λ _, Raise ValueError) open_wb e a
       [Byte.x61; Byte.x0a] ValueError _ _ _ _)))).
  - reflexivity.
  - vm_compute; reflexivity.
  - vm_compute; reflexivity.
  - reflexivity.
Defined.

Lemma handle_upload_open_fails_then_process_data_witness :
  let e := UploadEvent (Some [Byte.x61; Byte.x0a]) "nodir/export.csv" in
  let a := App (Some "/srv/app/old.csv") (Some "Messenger") ∅ in
  let open_wb := λ path, negb (String.prefix "/srv/app/nodir/" path) in
  let r := handle_upload "/srv/app" (λ _, Ok (["a"], [])) open_wb e a in
  r.2 = Raise OSError ∧ self_file_path r.1 = Some "/srv/app/nodir/export.csv".
Proof.
  intros e a open_wb r.
  destruct (handle_upload_open_fails_then_process_data "/srv/app" (λ _, Ok (["a"], []))
              open_wb e a [Byte.x61; Byte.x0a])
    as (Hraise & Hpath & _).
  - reflexivity.
  - vm_compute; reflexivity.
  - vm_compute; reflexivity.
  - reflexivity.
  - split; [exact Hraise|exact Hpath].
Defined.

Lemma rejected_uploads_change_nothing_witness :
  let events := [UploadEvent None "export.csv"; UploadEvent (Some [Byte.x61]) "notes.txt"] in
  foldl (λ a e, (handle_upload "/srv/app" (λ _, Raise ValueError) (λ _, true) e a).1)
    (__init__ ∅) events
  = __init__ ∅.
Proof.
  intros events.
  refine (proj1 (rejected_uploads_change_nothing "/srv/app" (λ _, Raise ValueError)
                   (λ _, true) events ∅ _)).
  apply Forall_cons. split; [left; reflexivity|].
  apply Forall_cons. split; [right; vm_compute; reflexivity|].
  apply Forall_nil_2.
Defined.

(** ** Runs that do not save *)

Section run_failures.

Variable parse_strftime : string → result string.
Variable detect_and_categorize :
  list (gmap string value) → result (gmap string (list (gmap string value))).
Variable prevent_duplicates :
  gmap string (list (gmap string value)) →
  result (gmap string (list (gmap string value))).

(** A run that does not end with the success dialog leaves the document
    and the global identifier table as they were, with one exception: when
    it is the save itself that raises, the table has already received the
    identifiers stored in the document (line 151 runs before line 157) and
    keeps them. *)
Theorem process_data_failure_leaves_world (u : upload) (w w' : world) (o : outcome) :
  process_data parse_strftime detect_and_categorize prevent_duplicates u w = (w', o) →
  o ≠ Saved →
  w' = w ∨
  (o = Failed OSError ∧ save_fault u = true ∧ disk w' = disk w ∧
   ∃ merged stored ids,
     prepare parse_strftime detect_and_categorize prevent_duplicates u w = Ok merged ∧
     stored_identifiers merged = Ok stored ∧
     unique_identifiers w = Some ids ∧
     unique_identifiers w' = Some (stored ∪ ids)).
Proof.
  unfold process_data, try_block.
  destruct (falsy (file_path u)); [intros [= <- <-] _; by left|].
  destruct (falsy (data_category u)); [intros [= <- <-] _; by left|].
  destruct (prepare _ _ _ u w) as [merged|e] eqn:Hp; [|intros [= <- <-] _; by left].
  destruct (unique_identifiers w) as [ids|] eqn:Hids; [|intros [= <- <-] _; by left].
  destruct (stored_identifiers merged) as [stored|e] eqn:Hst;
    [|intros [= <- <-] _; by left].
  unfold save_json_data. destruct (save_fault u).
  - intros [= <- <-] _. right. split_and!; [done..|]. by exists merged, stored, ids.
  - by intros [= <- <-] [].
Qed.

End run_failures.

Lemma process_data_failure_leaves_world_witness :
  let alice : gmap string value :=
    {[ "Time" := VStr "2024-01-01T10:00:00"; "Sender" := VStr "Alice"; "Text" := VStr "hi" ]} in
  let u := Upload (Some "export.csv") (Some "Messenger") (Ok [alice]) false true in
  let doc : gmap string json := {[ "identifiers" := JDict {[ VStr "Bob" := "ID_001" ]} ]} in
  let w := World (Some doc) (Some ∅) in
  let r := process_data (λ s, Ok s) categorize_by_columns filter_each_category u w in
  r.1 = w ∨ (r.2 = Failed OSError ∧ save_fault u = true ∧ disk r.1 = disk w ∧
             ∃ merged stored ids,
               prepare (λ s, Ok s) categorize_by_columns filter_each_category u w
               = Ok merged ∧
               stored_identifiers merged = Ok stored ∧
               unique_identifiers w = Some ids ∧
               unique_identifiers r.1 = Some (stored ∪ ids)).
Proof.
  intros alice u doc w r.
  apply (process_data_failure_leaves_world (λ s, Ok s) categorize_by_columns
           filter_each_category u w r.1 r.2).
  - apply surjective_pairing.
  - assert (r.2 = Failed OSError) as -> by (vm_compute; reflexivity). discriminate.
Defined.
